(** * Caption synchronisation of the audio module (AudioPlayer)

    A shallow embedding of the audio module: the WebVTT timestamp and cue
    parser ([parseTimestamp], [parseVTT]), the time-based cue lookup
    ([updateSubtitleByTime]), the pause handler and the two-transport loader
    ([loadVTTManually], [loadVTTWithXHR]).

    JavaScript values are modelled as the language defines them:
    - a string is its sequence of UTF-16 code units ([list N]);
    - a Number is an IEEE 754 binary64 value (Rocq's primitive [float], which
      has a single NaN, signed zeros and infinities);
    - an array is a list, and an index outside it reads [undefined] ([None]);
    - calling a method on [undefined] raises a TypeError. *)

From Stdlib Require Import List Bool Arith ZArith NArith Lia Ascii String.
From Stdlib Require Import Floats Uint63.
Import ListNotations.

(* ================================================================== *)
(** * Strings *)

Module JsString.

(** A string is a sequence of UTF-16 code units. *)
Definition jsstring := list N.

(** The code unit of an ASCII character, and the string of a literal. *)
Definition ch (a : ascii) : N := N_of_ascii a.
Definition lit (s : string) : jsstring := List.map ch (list_ascii_of_string s).

Definition isEmpty (s : jsstring) : bool :=
  match s with [] => true | _ :: _ => false end.

Fixpoint eqb (s t : jsstring) : bool :=
  match s, t with
  | [], [] => true
  | c :: s', d :: t' => N.eqb c d && eqb s' t'
  | _, _ => false
  end.

(** WhiteSpace and LineTerminator code points, the ones that
    [String.prototype.trim], [parseInt] and [parseFloat] strip:
    TAB LF VT FF CR SP NBSP, U+1680, U+2000..U+200A, U+2028, U+2029,
    U+202F, U+205F, U+3000 and U+FEFF. *)
Definition isWhiteSpace (c : N) : bool :=
  (existsb (N.eqb c)
     [9; 10; 11; 12; 13; 32; 160; 5760; 8232; 8233; 8239; 8287; 12288; 65279]
   || (N.leb 8192 c && N.leb c 8202))%N.

Fixpoint dropWhile (p : N -> bool) (s : jsstring) : jsstring :=
  match s with
  | [] => []
  | c :: s' => if p c then dropWhile p s' else s
  end.

Fixpoint takeWhile (p : N -> bool) (s : jsstring) : jsstring :=
  match s with
  | [] => []
  | c :: s' => if p c then c :: takeWhile p s' else []
  end.

Definition trimStart (s : jsstring) : jsstring := dropWhile isWhiteSpace s.
Definition trimEnd (s : jsstring) : jsstring := rev (dropWhile isWhiteSpace (rev s)).

(** [s.trim()] *)
Definition trim (s : jsstring) : jsstring := trimEnd (trimStart s).

Fixpoint isPrefix (p s : jsstring) : bool :=
  match p, s with
  | [], _ => true
  | c :: p', d :: s' => N.eqb c d && isPrefix p' s'
  | _ :: _, [] => false
  end.

(** [s.includes(sub)]: [sub] occurs at some position of [s]. *)
Fixpoint includes (sub s : jsstring) : bool :=
  isPrefix sub s
  || match s with
     | [] => false
     | _ :: s' => includes sub s'
     end.

(** Scan of [s.split(sep)] for a non-empty [sep]: [cur] holds (reversed) the
    piece being read and [skip] counts the code units of a matched separator
    that are still to be passed over.  Matches are found left to right and
    do not overlap. *)
Fixpoint splitScan (sep s cur : jsstring) (skip : nat) : list jsstring :=
  match s with
  | [] => [rev cur]
  | c :: s' =>
      match skip with
      | S k => splitScan sep s' cur k
      | O =>
          if isPrefix sep s
          then rev cur :: splitScan sep s' [] (List.length sep - 1)
          else splitScan sep s' (c :: cur) 0
      end
  end.

(** [s.split(sep)]; an empty separator splits between code units. *)
Definition split (sep s : jsstring) : list jsstring :=
  match sep with
  | [] => List.map (fun c => [c]) s
  | _ :: _ => splitScan sep s [] 0
  end.

(** [pieces.join(sep)] *)
Fixpoint join (sep : jsstring) (pieces : list jsstring) : jsstring :=
  match pieces with
  | [] => []
  | [p] => p
  | p :: rest => p ++ sep ++ join sep rest
  end.

End JsString.
Export JsString.

(* ================================================================== *)
(** * Numbers *)

Module JsNumber.

(** A Number is a binary64 float. *)
Definition number := float.

Definition isDigit (c : N) : bool := (N.leb 48 c && N.leb c 57)%N.

(** Value of a code unit as a digit: 0-9, then a-z and A-Z for 10..35;
    anything else is no digit in any radix. *)
Definition digitValue (c : N) : Z :=
  if isDigit c then Z.of_N c - 48
  else if (N.leb 97 c && N.leb c 122)%N then Z.of_N c - 87
  else if (N.leb 65 c && N.leb c 90)%N then Z.of_N c - 55
  else 36.

Definition isRadixDigit (R : Z) (c : N) : bool := (digitValue c <? R)%Z.

(** The integer written by the digits [ds] in radix [R]. *)
Definition radixValue (R : Z) (ds : jsstring) : Z :=
  fold_left (fun acc c => (R * acc + digitValue c)%Z) ds 0%Z.

(** The Number value for an integer of magnitude [n] (round to nearest,
    ties to even; zero keeps the sign [neg]). *)
Definition ofInteger (neg : bool) (n : Z) : number :=
  SF2Prim (binary_normalize prec emax (if neg then Z.opp n else n) 0 neg).

(** The Number value for the ratio [p / q] of two positive integers: the
    quotient is taken with a sticky location and rounded once. *)
Definition ofRatio (neg : bool) (p q : Z) : number :=
  let '(mz, ez, lz) := SFdiv_core_binary prec emax p 0 q 0 in
  SF2Prim (binary_round_aux prec emax neg mz ez lz).

(** The Number value for [m * 10^e] with [0 <= m]: the exact value, rounded
    once.  (The language lets an implementation stop reading significant
    digits after the twentieth; the value here is the one of an
    implementation that reads them all.) *)
Definition ofDecimal (neg : bool) (m e : Z) : number :=
  if (m =? 0)%Z then (if neg then neg_zero else zero)
  else if (0 <=? e)%Z then ofInteger neg (m * 10 ^ e)
  else ofRatio neg m (10 ^ (- e)).

(** An optional leading sign: whether it is a minus, and the rest. *)
Definition readSign (s : jsstring) : bool * jsstring :=
  match s with
  | c :: r =>
      if N.eqb c (ch "-") then (true, r)
      else if N.eqb c (ch "+") then (false, r)
      else (false, s)
  | [] => (false, s)
  end.

(** [parseInt(str)] with no radix argument: leading white space is
    skipped, a sign is read, a [0x]/[0X] prefix selects radix 16 and
    otherwise the radix is 10; the longest run of digits is the value and no
    digit at all gives NaN.  Anything after the digits is ignored. *)
Definition parseInt (str : jsstring) : number :=
  let '(neg, s) := readSign (trimStart str) in
  let '(R, s) :=
    match s with
    | c0 :: c1 :: r =>
        if N.eqb c0 (ch "0") && (N.eqb c1 (ch "x") || N.eqb c1 (ch "X"))
        then (16%Z, r) else (10%Z, s)
    | _ => (10%Z, s)
    end in
  match takeWhile (isRadixDigit R) s with
  | [] => nan
  | ds => ofInteger neg (radixValue R ds)
  end.

(** The exponent part [e|E [+|-] digits] at the head of [s], 0 when there
    is none (an indicator without digits is not part of the literal). *)
Definition readExponent (s : jsstring) : Z :=
  match s with
  | c :: r =>
      if N.eqb c (ch "e") || N.eqb c (ch "E") then
        let '(neg, r') := readSign r in
        match takeWhile isDigit r' with
        | [] => 0%Z
        | ds => if neg then Z.opp (radixValue 10 ds) else radixValue 10 ds
        end
      else 0%Z
  | [] => 0%Z
  end.

(** [parseFloat(str)]: leading white space is skipped and the longest
    prefix that is a StrDecimalLiteral is the value:
    [[+|-] (Infinity | digits [. [digits]] [exp] | . digits [exp])];
    no such prefix gives NaN. *)
Definition parseFloat (str : jsstring) : number :=
  let '(neg, s) := readSign (trimStart str) in
  if isPrefix (lit "Infinity") s then (if neg then neg_infinity else infinity)
  else
    let ip := takeWhile isDigit s in
    let s1 := dropWhile isDigit s in
    let '(fp, s2) :=
      match s1 with
      | c :: r =>
          if N.eqb c (ch ".")
          then (takeWhile isDigit r, dropWhile isDigit r)
          else ([], s1)
      | [] => ([], s1)
      end in
    match ip ++ fp with
    | [] => nan
    | ds => ofDecimal neg (radixValue 10 ds)
              (readExponent s2 - Z.of_nat (List.length fp))
    end.

End JsNumber.
Export JsNumber.

(* ================================================================== *)
(** * The audio module *)

Module Audio.

(** ** Completions

    A call either returns, or raises a TypeError (a method called on
    [undefined]).  [OutOfFuel] is the model's own: a loop that was given
    too few iterations to finish. *)
Inductive completion (A : Type) : Type :=
| Ok (a : A)
| TypeError
| OutOfFuel.
Arguments Ok {A} a.
Arguments TypeError {A}.
Arguments OutOfFuel {A}.

Definition bind {A B : Type} (c : completion A) (k : A -> completion B) : completion B :=
  match c with
  | Ok a => k a
  | TypeError => TypeError
  | OutOfFuel => OutOfFuel
  end.

Notation "x <- c ;; k" := (bind c (fun x => k))
  (at level 61, c at next level, right associativity).
Notation "' p <- c ;; k" := (bind c (fun x => let 'p := x in k))
  (at level 61, p pattern, c at next level, right associativity).

(** The receiver of a method call: [undefined] raises. *)
Definition receiver {A : Type} (v : option A) : completion A :=
  match v with
  | Some a => Ok a
  | None => TypeError
  end.

(** [ToString] of an array element that goes to [parseInt], [parseFloat]
    or a concatenation. *)
Definition toStr (v : option jsstring) : jsstring :=
  match v with
  | Some s => s
  | None => lit "undefined"
  end.

(** ** Data *)

(** A cue object [{startTime, endTime, text}]. *)
Record Cue : Type := mkCue {
  startTime : number;
  endTime : number;
  text : jsstring
}.

(** The subtitle element: its text and its class list. *)
Record Display : Type := mkDisplay {
  textContent : jsstring;
  classList : list jsstring
}.

(** The audio element, as far as the module reads it. *)
Record Player : Type := mkPlayer {
  currentTime : number;
  paused : bool
}.

(** A native text track; [cues] and [activeCues] may be [null]. *)
Record TextTrack : Type := mkTextTrack {
  cues : option (list Cue);
  activeCues : option (list Cue)
}.

(** The [AudioPlayer] object after a successful [init]. *)
Record AudioPlayer : Type := mkAudioPlayer {
  player : Player;
  subtitleDisplay : Display;
  track : option TextTrack;
  manualCues : list Cue
}.

Definition withManualCues (this : AudioPlayer) (cs : list Cue) : AudioPlayer :=
  mkAudioPlayer (player this) (subtitleDisplay this) (track this) cs.

Definition withDisplay (this : AudioPlayer) (d : Display) : AudioPlayer :=
  mkAudioPlayer (player this) d (track this) (manualCues this).

(** [classList.add(tok)] and [classList.remove(tok)] *)
Definition classListAdd (tok : jsstring) (cl : list jsstring) : list jsstring :=
  if existsb (JsString.eqb tok) cl then cl else cl ++ [tok].

Definition classListRemove (tok : jsstring) (cl : list jsstring) : list jsstring :=
  filter (fun t => negb (JsString.eqb tok t)) cl.

(** Comparisons of Numbers as the source writes them. *)
Definition geb (x y : number) : bool := (y <=? x)%float.
Definition leb (x y : number) : bool := (x <=? y)%float.
Definition gtb (x y : number) : bool := (y <? x)%float.
Definition strictEq (x y : number) : bool := (x =? y)%float.

(** ** parseTimestamp *)

Definition parseTimestamp (timestamp : jsstring) : completion number :=
  let parts := split (lit ":") timestamp in
  (* parts[parts.length - 1].split('.') *)
  lastPart <- receiver (nth_error parts (List.length parts - 1)) ;;
  let seconds := split (lit ".") lastPart in
  let totalSeconds :=
    if List.length parts =? 3 then
      (parseInt (toStr (nth_error parts 0)) * 3600
       + parseInt (toStr (nth_error parts 1)) * 60
       + parseFloat (toStr (nth_error seconds 0)))%float
    else if List.length parts =? 2 then
      (parseInt (toStr (nth_error parts 0)) * 60
       + parseFloat (toStr (nth_error seconds 0)))%float
    else
      parseFloat (toStr (nth_error seconds 0)) in
  let totalSeconds :=
    if 1 <? List.length seconds
    then (totalSeconds + parseFloat (lit "0." ++ toStr (nth_error seconds 1)))%float
    else totalSeconds in
  Ok totalSeconds.

(** ** parseVTT *)

Definition arrow : jsstring := lit "-->".
Definition newline : jsstring := [10%N].

(** [while (i < lines.length && !lines[i].includes('-->')) i++] *)
Fixpoint skipHeader (fuel : nat) (lines : list jsstring) (i : nat) : completion nat :=
  match fuel with
  | O => OutOfFuel
  | S fuel' =>
      if i <? List.length lines then
        line <- receiver (nth_error lines i) ;;
        if negb (includes arrow line)
        then skipHeader fuel' lines (S i)
        else Ok i
      else Ok i
  end.

(** [while (i < lines.length && lines[i].trim() !== '')
       { if (text) text += ' '; text += lines[i].trim(); i++ }] *)
Fixpoint readText (fuel : nat) (lines : list jsstring) (i : nat) (text : jsstring)
  : completion (nat * jsstring) :=
  match fuel with
  | O => OutOfFuel
  | S fuel' =>
      if i <? List.length lines then
        line <- receiver (nth_error lines i) ;;
        if negb (isEmpty (trim line)) then
          let text := if negb (isEmpty text) then text ++ lit " " else text in
          readText fuel' lines (S i) (text ++ trim line)
        else Ok (i, text)
      else Ok (i, text)
  end.

(** The cue loop [while (i < lines.length) { ... i++ }], on the array
    [manualCues] that the pushes extend. *)
Fixpoint parseCues (fuel : nat) (lines : list jsstring) (i : nat) (manualCues : list Cue)
  : completion (list Cue) :=
  match fuel with
  | O => OutOfFuel
  | S fuel' =>
      if i <? List.length lines then
        raw <- receiver (nth_error lines i) ;;
        let line := trim raw in
        if includes arrow line then
          let times := split arrow line in
          t0 <- receiver (nth_error times 0) ;;
          startTime <- parseTimestamp (trim t0) ;;
          t1 <- receiver (nth_error times 1) ;;
          endTime <- parseTimestamp (trim t1) ;;
          '(i', text) <- readText fuel' lines (S i) [] ;;
          parseCues fuel' lines (S i') (manualCues ++ [mkCue startTime endTime text])
        else
          parseCues fuel' lines (S i) manualCues
      else Ok manualCues
  end.

Definition parseVTTWith (fuel : nat) (vttText : jsstring) (this : AudioPlayer)
  : completion AudioPlayer :=
  let lines := split newline vttText in
  i <- skipHeader fuel lines 0 ;;
  cs <- parseCues fuel lines i (manualCues this) ;;
  Ok (withManualCues this cs).

(** [parseVTT(vttText)]; every loop advances [i] through [lines], so a
    budget of one iteration more than there are lines lets each finish. *)
Definition parseVTT (vttText : jsstring) (this : AudioPlayer) : completion AudioPlayer :=
  parseVTTWith (S (List.length (split newline vttText))) vttText this.

(** ** updateSubtitleByTime *)

Definition covers (currentTime : number) (cue : Cue) : bool :=
  geb currentTime (startTime cue) && leb currentTime (endTime cue).

(** [for (i = 0; i < cues.length; i++) { if (...) { currentCue = cue; break } }] *)
Fixpoint scanCues (currentTime : number) (cs : list Cue) : option Cue :=
  match cs with
  | [] => None
  | cue :: rest =>
      if covers currentTime cue then Some cue else scanCues currentTime rest
  end.

(** [this.track && this.track.cues && this.track.cues.length > 0] *)
Definition nativeCues (this : AudioPlayer) : option (list Cue) :=
  match track this with
  | Some t =>
      match cues t with
      | Some cs => if 0 <? List.length cs then Some cs else None
      | None => None
      end
  | None => None
  end.

(** The two branches that look for [currentCue]. *)
Definition findCurrentCue (this : AudioPlayer) : option Cue :=
  let currentTime := currentTime (player this) in
  match nativeCues this with
  | Some cs => scanCues currentTime cs
  | None =>
      if 0 <? List.length (manualCues this)
      then scanCues currentTime (manualCues this)
      else None
  end.

Definition active : jsstring := lit "active".
Definition ellipsis : jsstring := lit "...".

Definition updateSubtitleByTime (this : AudioPlayer) : AudioPlayer :=
  match findCurrentCue this with
  | Some currentCue =>
      withDisplay this
        (mkDisplay (text currentCue)
                   (classListAdd active (classList (subtitleDisplay this))))
  | None =>
      if gtb (currentTime (player this)) 0%float && negb (paused (player this))
      then withDisplay this
             (mkDisplay ellipsis
                        (classListRemove active (classList (subtitleDisplay this))))
      else this
  end.

(** The [timeupdate] listener. *)
Definition timeupdateListener (this : AudioPlayer) : AudioPlayer :=
  match nativeCues this with
  | Some _ => updateSubtitleByTime this
  | None => this
  end.

(** ** Listeners of setupEventListeners *)

Definition readyMessage : jsstring := lit "Press play to start the audio guide...".
Definition finishedMessage : jsstring := lit "Audio finished. Click play to listen again.".

(** The [pause] listener. *)
Definition pauseListener (this : AudioPlayer) : AudioPlayer :=
  if strictEq (currentTime (player this)) 0%float
  then withDisplay this
         (mkDisplay readyMessage
                    (classListRemove active (classList (subtitleDisplay this))))
  else this.

(** The [ended] listener. *)
Definition endedListener (this : AudioPlayer) : AudioPlayer :=
  withDisplay this
    (mkDisplay finishedMessage
               (classListRemove active (classList (subtitleDisplay this)))).

(** ** Loading *)

(** What the two transports deliver.  A fetch is rejected, or resolves to
    a response with a status whose body may fail to read; an XHR fires
    [onload] with a status and a body, or [onerror]. *)
Inductive FetchOutcome : Type :=
| FetchRejected
| FetchResponse (status : Z) (body : option jsstring).

Inductive XhrOutcome : Type :=
| XhrLoad (status : Z) (responseText : jsstring)
| XhrError.

Record Network : Type := mkNetwork {
  fetchOutcome : FetchOutcome;
  xhrOutcome : XhrOutcome
}.

(** What a load does to the outside: the requests it sends and the
    messages it writes to the subtitle element. *)
Inductive Event : Type :=
| FetchSent (url : jsstring)
| XhrSent (url : jsstring)
| Published (message : jsstring).

Definition vttUrl : jsstring := lit "assets/audio/Transcript.vtt".
Definition xhrStatusMessage : jsstring :=
  lit "Unable to load subtitles. Please use a local server or try Safari.".
Definition xhrErrorMessage : jsstring :=
  lit "Subtitles unavailable in this browser. Try Safari or use a local server.".

Definition publish (message : jsstring) (this : AudioPlayer) : AudioPlayer :=
  withDisplay this (mkDisplay message (classList (subtitleDisplay this))).

(** [response.ok] *)
Definition responseOk (status : Z) : bool := ((200 <=? status) && (status <=? 299))%Z.

Definition loadVTTWithXHR (net : Network) (this : AudioPlayer)
  : completion (AudioPlayer * list Event) :=
  match xhrOutcome net with
  | XhrLoad status responseText =>
      if ((status =? 200) || (status =? 0))%Z then
        this' <- parseVTT responseText this ;;
        Ok (this', [XhrSent vttUrl])
      else
        Ok (publish xhrStatusMessage this, [XhrSent vttUrl; Published xhrStatusMessage])
  | XhrError =>
      Ok (publish xhrErrorMessage this, [XhrSent vttUrl; Published xhrErrorMessage])
  end.

(** The [.catch] handler of [loadVTTManually]. *)
Definition fetchFailed (net : Network) (this : AudioPlayer)
  : completion (AudioPlayer * list Event) :=
  '(this', events) <- loadVTTWithXHR net this ;;
  Ok (this', FetchSent vttUrl :: events).

(** [loadVTTManually()]: the promise chain, run to its end.  A rejected
    fetch, a response that is not ok, a body that fails to read and an
    exception of [parseVTT] all reach the [.catch] handler.  ([parseVTT]
    raises nothing, see [parseVTT_returns], so the handler never runs after
    cues were pushed.) *)
Definition loadVTTManually (net : Network) (this : AudioPlayer)
  : completion (AudioPlayer * list Event) :=
  match fetchOutcome net with
  | FetchResponse status (Some vttText) =>
      if responseOk status then
        match parseVTT vttText this with
        | Ok this' => Ok (this', [FetchSent vttUrl])
        | TypeError => fetchFailed net this
        | OutOfFuel => OutOfFuel
        end
      else fetchFailed net this
  | FetchResponse _ None => fetchFailed net this
  | FetchRejected => fetchFailed net this
  end.

End Audio.
Export Audio.

(* ================================================================== *)
(** * The specification's wording

    Definitions that follow the text of the specification, to be compared
    with the functions above. *)

Module Spec.

(** *** Timestamp grammar

    A timestamp is [HH:MM:SS.mmm], [MM:SS.mmm] or [SS.mmm], the fractional
    part being optional: one to three fields of decimal digits separated by
    colons, then possibly a dot and more digits. *)

Definition digits (s : jsstring) : Prop :=
  s <> [] /\ Forall (fun c => isDigit c = true) s.

(** The integer a digit string writes. *)
Definition decimal (s : jsstring) : Z :=
  fold_left (fun acc c => (10 * acc + (Z.of_N c - 48))%Z) s 0%Z.

(** The Number of a field, and of the fraction [0.fff]. *)
Definition fieldValue (s : jsstring) : number := ofInteger false (decimal s).

Definition fractionValue (f : jsstring) : number :=
  if (decimal f =? 0)%Z then zero
  else ofRatio false (decimal f) (10 ^ Z.of_nat (List.length f)).

(** The optional fractional part, with its dot. *)
Definition fractionTail (fraction : option jsstring) : jsstring :=
  match fraction with
  | Some f => lit "." ++ f
  | None => []
  end.

Definition timestampText (fields : list jsstring) (fraction : option jsstring) : jsstring :=
  join (lit ":") fields ++ fractionTail fraction.

Definition wellFormed (fields : list jsstring) (fraction : option jsstring) : Prop :=
  (1 <= List.length fields <= 3)
  /\ Forall digits fields
  /\ (forall f, fraction = Some f -> digits f).

(** [H*3600 + M*60 + S], by the count of colon-delimited fields. *)
Definition wholeSeconds (fields : list jsstring) : number :=
  match fields with
  | [h; m; s] => (fieldValue h * 3600 + fieldValue m * 60 + fieldValue s)%float
  | [m; s] => (fieldValue m * 60 + fieldValue s)%float
  | [s] => fieldValue s
  | _ => nan
  end.

(** [H*3600 + M*60 + S + 0.fff] *)
Definition totalSeconds (fields : list jsstring) (fraction : option jsstring) : number :=
  match fraction with
  | Some f => (wholeSeconds fields + fractionValue f)%float
  | None => wholeSeconds fields
  end.

Definition Timestamp (s : jsstring) : Prop :=
  exists fields fraction, wellFormed fields fraction /\ s = timestampText fields fraction.

(** *** Cue parsing *)

Definition isTimingLine (l : jsstring) : bool := includes arrow l.
Definition isBlank (l : jsstring) : bool := isEmpty (trim l).

(** The [k]-th timestamp field of a timing line. *)
Definition field (k : nat) (l : jsstring) : jsstring :=
  trim (nth k (split arrow (trim l)) []).

(** The seconds a field parses to. *)
Definition stamp (s : jsstring) : number :=
  match parseTimestamp s with
  | Ok v => v
  | _ => nan
  end.

(** A cue whose text is still being consumed: its times and the lines
    taken so far. *)
Record OpenCue : Type := mkOpenCue {
  openStart : number;
  openEnd : number;
  openLines : list jsstring
}.

Definition openCue (l : jsstring) : OpenCue :=
  mkOpenCue (stamp (field 0 l)) (stamp (field 1 l)) [].

Definition addLine (o : OpenCue) (l : jsstring) : OpenCue :=
  mkOpenCue (openStart o) (openEnd o) (openLines o ++ [trim l]).

(** The consumed lines joined with a single space. *)
Definition closeCue (o : OpenCue) : Cue :=
  mkCue (openStart o) (openEnd o) (join (lit " ") (openLines o)).

(** Step 1: skip all lines until the first one containing [-->]. *)
Fixpoint skipToTiming (ls : list jsstring) : list jsstring :=
  match ls with
  | [] => []
  | l :: rest => if isTimingLine l then ls else skipToTiming rest
  end.

(** Steps 2 to 4, line by line: outside a cue a timing line opens one and
    any other line is ignored; inside a cue a non-blank line is consumed as
    text and a blank line, or the end of the input, ends the cue, which is
    appended in encounter order. *)
Fixpoint cuesOf (cur : option OpenCue) (ls : list jsstring) : list Cue :=
  match ls with
  | [] =>
      match cur with
      | Some o => [closeCue o]
      | None => []
      end
  | l :: rest =>
      match cur with
      | Some o =>
          if isBlank l then closeCue o :: cuesOf None rest
          else cuesOf (Some (addLine o l)) rest
      | None =>
          if isTimingLine l then cuesOf (Some (openCue l)) rest
          else cuesOf None rest
      end
  end.

(** [parse(rawText)], the cues encoded in [rawText]. *)
Definition parse (rawText : jsstring) : list Cue :=
  cuesOf None (skipToTiming (split newline rawText)).

(** *** The data-model invariant *)

(** [0 <= x] on Numbers (false for NaN), and its reading on the
    specification of binary64. *)
Definition nonneg (x : number) : bool := leb 0%float x.
Definition sfNonneg (x : spec_float) : bool := SFleb (S754_zero false) x.

(** [0 <= startTime <= endTime] *)
Definition cueInvariant (c : Cue) : bool :=
  nonneg (startTime c) && leb (startTime c) (endTime c).

(** The cues that a parse added to the ones stored before. *)
Definition appended (before after : AudioPlayer) : list Cue :=
  skipn (List.length (manualCues before)) (manualCues after).

(** The whole-seconds piece of a timestamp: what precedes the first dot
    of the last colon-delimited field. *)
Definition wholePart (s : jsstring) : jsstring :=
  nth 0 (split (lit ".") (last (split (lit ":") s) [])) [].

(** *** Resolution *)

(** The track that a time update consults. *)
Definition consultedCues (this : AudioPlayer) : list Cue :=
  match nativeCues this with
  | Some cs => cs
  | None => manualCues this
  end.

(** *** Loading *)

(** The primary transport fails: network error, a status that is not
    2xx, or a body that cannot be read. *)
Definition primaryFails (net : Network) : bool :=
  match fetchOutcome net with
  | FetchResponse status (Some _) => negb (responseOk status)
  | FetchResponse _ None => true
  | FetchRejected => true
  end.

(** The secondary transport succeeds: status 200, or 0 for a local file. *)
Definition secondaryBody (net : Network) : option jsstring :=
  match xhrOutcome net with
  | XhrLoad status responseText =>
      if ((status =? 200) || (status =? 0))%Z then Some responseText else None
  | XhrError => None
  end.

Definition isFetchSent (e : Event) : bool :=
  match e with FetchSent _ => true | _ => false end.
Definition isXhrSent (e : Event) : bool :=
  match e with XhrSent _ => true | _ => false end.
Definition isPublished (e : Event) : bool :=
  match e with Published _ => true | _ => false end.

Definition count (p : Event -> bool) (events : list Event) : nat :=
  List.length (filter p events).

(** The body text was parsed into the stored cues. *)
Definition parsedInto (this this' : AudioPlayer) (body : jsstring) : Prop :=
  this' = withManualCues this (manualCues this ++ parse body).

(** How the secondary transport ends: its body is parsed and nothing is
    published, or one terminal failure message is published and the stored
    cues stay as they were. *)
Definition secondaryResult (net : Network) (this this' : AudioPlayer)
  (events : list Event) : Prop :=
  match secondaryBody net with
  | Some body => parsedInto this this' body /\ count isPublished events = 0
  | None =>
      count isPublished events = 1
      /\ (exists message,
             In (Published message) events
             /\ this' = publish message this
             /\ (message = xhrStatusMessage \/ message = xhrErrorMessage))
      /\ manualCues this' = manualCues this
  end.

(** *** Fields outside the grammar *)

(** The Numbers that enter the sum of [parseTimestamp], in the order
    written: the hour and minute pieces under [parseInt] when three or two
    colon-delimited fields are present, then the whole-seconds piece under
    [parseFloat]. *)
Definition piecesUsed (s : jsstring) : list number :=
  let parts := split (lit ":") s in
  let seconds := split (lit ".") (last parts []) in
  let sec := parseFloat (toStr (nth_error seconds 0)) in
  if List.length parts =? 3 then
    [parseInt (toStr (nth_error parts 0)); parseInt (toStr (nth_error parts 1)); sec]
  else if List.length parts =? 2 then
    [parseInt (toStr (nth_error parts 0)); sec]
  else [sec].

(** The fraction that is added when the last field has a dot. *)
Definition fractionUsed (s : jsstring) : option number :=
  let seconds := split (lit ".") (last (split (lit ":") s) []) in
  if 1 <? List.length seconds
  then Some (parseFloat (lit "0." ++ toStr (nth_error seconds 1)))
  else None.

(** The sum of one to three pieces, weighted by position. *)
Definition sumOf (pieces : list number) : number :=
  match pieces with
  | [h; m; sec] => (h * 3600 + m * 60 + sec)%float
  | [m; sec] => (m * 60 + sec)%float
  | [sec] => sec
  | _ => nan
  end.

(** The cue that is open after the lines [ls] were read, if any. *)
Fixpoint openAfter (cur : option OpenCue) (ls : list jsstring) : option OpenCue :=
  match ls with
  | [] => cur
  | l :: rest =>
      match cur with
      | Some o =>
          if isBlank l then openAfter None rest
          else openAfter (Some (addLine o l)) rest
      | None =>
          if isTimingLine l then openAfter (Some (openCue l)) rest
          else openAfter None rest
      end
  end.

End Spec.

(* ================================================================== *)
(** * Sample inputs *)

Module Samples.

(** The object right after [init]: nothing played, nothing loaded. *)
Definition fresh : AudioPlayer :=
  mkAudioPlayer (mkPlayer 0%float true) (mkDisplay [] []) None [].

(** ["00:00:01.000 --> 00:00:03.000\nHello\nworld\n\n"] *)
Definition cueBlock : jsstring :=
  lit "00:00:01.000 --> 00:00:03.000" ++ newline
  ++ lit "Hello" ++ newline ++ lit "world" ++ newline ++ newline.

Definition cueA : Cue := mkCue 0%float 5%float (lit "A").
Definition cueB : Cue := mkCue 2%float 7%float (lit "B").

(** Cues covering [1,3] and [5,8]. *)
Definition gapTrack : list Cue :=
  [mkCue 1%float 3%float (lit "one"); mkCue 5%float 8%float (lit "two")].

(** What the subtitle element shows while a cue is active. *)
Definition showing : Display := mkDisplay (lit "one") [lit "subtitle"; active].

(** A player at [time] with [gapTrack] parsed and no native track. *)
Definition manualAt (time : number) (isPaused : bool) : AudioPlayer :=
  mkAudioPlayer (mkPlayer time isPaused) showing None gapTrack.

(** A player at [time] whose native track exposes [native]. *)
Definition nativeAt (time : number) (isPaused : bool) (native manual : list Cue)
  : AudioPlayer :=
  mkAudioPlayer (mkPlayer time isPaused) showing
    (Some (mkTextTrack (Some native) None)) manual.

End Samples.

(* ================================================================== *)
(** * The other listeners *)

Module Listeners.

Definition loadingMessage : jsstring := lit "Loading subtitles...".
Definition trackErrorMessage : jsstring :=
  lit "Failed to load subtitles. Please check the VTT file.".

(** [updateSubtitle()], the [cuechange] listener: without a track it only
    warns; otherwise it shows the first of the track's active cues, or the
    ellipsis while playing past 0. *)
Definition updateSubtitle (this : AudioPlayer) : AudioPlayer :=
  match track this with
  | None => this
  | Some t =>
      match activeCues t with
      | Some (cue :: _) =>
          withDisplay this
            (mkDisplay (text cue)
                       (classListAdd active (classList (subtitleDisplay this))))
      | _ =>
          if gtb (currentTime (player this)) 0%float && negb (paused (player this))
          then withDisplay this
                 (mkDisplay ellipsis
                            (classListRemove active (classList (subtitleDisplay this))))
          else this
      end
  end.

(** The [play] listener:
    [if (this.player.currentTime < 1 && !this.track.activeCues.length)].
    The right operand reads a property of [this.track] and of its
    [activeCues], which raises when either is [null]. *)
Definition playListener (this : AudioPlayer) : completion AudioPlayer :=
  if (currentTime (player this) <? 1)%float then
    t <- receiver (track this) ;;
    cs <- receiver (activeCues t) ;;
    if List.length cs =? 0
    then Ok (publish loadingMessage this)
    else Ok this
  else Ok this.

(** The [error] listener of the track element. *)
Definition trackErrorListener (this : AudioPlayer) : AudioPlayer :=
  publish trackErrorMessage this.

(** The listeners that the module registers, and what each runs. *)
Inductive Listener : Type :=
| Timeupdate
| CueChange
| Ended
| Pause
| Play
| TrackError.

Definition run (l : Listener) (this : AudioPlayer) : completion AudioPlayer :=
  match l with
  | Timeupdate => Ok (timeupdateListener this)
  | CueChange => Ok (updateSubtitle this)
  | Ended => Ok (endedListener this)
  | Pause => Ok (pauseListener this)
  | Play => playListener this
  | TrackError => Ok (trackErrorListener this)
  end.

(** What a listener leaves alone: the player, the track, the parsed cues,
    every class other than [active], and the absence of repeated classes. *)
Definition sameButActive (before after : AudioPlayer) : Prop :=
  player after = player before
  /\ track after = track before
  /\ manualCues after = manualCues before
  /\ (forall tok, tok <> active ->
        (In tok (classList (subtitleDisplay after))
         <-> In tok (classList (subtitleDisplay before))))
  /\ (NoDup (classList (subtitleDisplay before)) ->
      NoDup (classList (subtitleDisplay after))).

End Listeners.
Export Listeners.

(* ================================================================== *)
(** * Texts and their lines *)

Module Lines.

(** The text with a carriage return put before every line feed. *)
Fixpoint crlf (s : jsstring) : jsstring :=
  match s with
  | [] => []
  | c :: r => if N.eqb c 10 then 13%N :: 10%N :: crlf r else c :: crlf r
  end.

(** [f] on every element but the last. *)
Fixpoint mapInit {A : Type} (f : A -> A) (l : list A) : list A :=
  match l with
  | [] => []
  | [x] => [x]
  | x :: rest => f x :: mapInit f rest
  end.

Definition addCR (l : jsstring) : jsstring := l ++ [13%N].

(** Two texts separated by an empty line. *)
Definition blocks (first second : jsstring) : jsstring :=
  first ++ newline ++ newline ++ second.

(** A string that neither starts nor ends with white space (the code unit
    0 stands for the missing end of the empty string). *)
Definition trimmed (s : jsstring) : Prop :=
  isWhiteSpace (hd 0%N s) = false /\ isWhiteSpace (hd 0%N (rev s)) = false.

(** What a consumed text line is: not empty, trimmed, on one line. *)
Definition textLine (l : jsstring) : Prop :=
  l <> [] /\ trimmed l /\ ~ In 10%N l.

End Lines.

(* ================================================================== *)
(** * Facts about strings *)

Section SplitFacts.

Variable c : N.
Variable sep' : jsstring.
Let sep := c :: sep'.

Lemma isPrefix_refl_app (p s : jsstring) : isPrefix p (p ++ s) = true.
Proof.
  induction p as [|x p IH]; simpl; [reflexivity|].
  now rewrite N.eqb_refl, IH.
Qed.

Lemma splitScan_nonempty (s cur : jsstring) (k : nat) :
  splitScan sep s cur k <> [].
Proof.
  revert cur k; induction s as [|x s IH]; intros cur k; cbn [splitScan].
  - intros H; discriminate H.
  - destruct k; [|apply IH].
    destruct (isPrefix sep (x :: s)); [intros H; discriminate H|apply IH].
Qed.

(** The rest of a matched separator is passed over. *)
Lemma splitScan_skip (pre s cur : jsstring) :
  splitScan sep (pre ++ s) cur (List.length pre) = splitScan sep s cur 0.
Proof.
  induction pre as [|x pre IH]; simpl; [reflexivity|assumption].
Qed.

(** A piece without the separator's first code unit, followed by the
    separator, is the next element of the split. *)
Lemma splitScan_piece (a b cur : jsstring) :
  ~ In c a ->
  splitScan sep (a ++ sep ++ b) cur 0 = (rev cur ++ a) :: splitScan sep b [] 0.
Proof.
  revert cur; induction a as [|x a IH]; intros cur Hc.
  - change ([] ++ sep ++ b) with (c :: (sep' ++ b)). cbn [splitScan].
    change (c :: sep' ++ b) with (sep ++ b).
    rewrite isPrefix_refl_app, app_nil_r.
    replace (List.length sep - 1) with (List.length sep')
      by (unfold sep; cbn [List.length]; lia).
    now rewrite splitScan_skip.
  - rewrite <- app_comm_cons. cbn [splitScan].
    assert (Hx : N.eqb c x = false).
    { apply N.eqb_neq. intros ->. apply Hc. now left. }
    unfold sep at 1. cbn [isPrefix]. rewrite Hx. cbn [andb].
    rewrite IH by (intros Hin; apply Hc; now right).
    cbn [rev]. now rewrite <- app_assoc.
Qed.

(** A string without the separator's first code unit is one piece. *)
Lemma splitScan_last (a cur : jsstring) :
  ~ In c a -> splitScan sep a cur 0 = [rev cur ++ a].
Proof.
  revert cur; induction a as [|x a IH]; intros cur Hc.
  - simpl. now rewrite app_nil_r.
  - cbn [splitScan].
    assert (Hx : N.eqb c x = false).
    { apply N.eqb_neq. intros ->. apply Hc. now left. }
    unfold sep at 1. cbn [isPrefix]. rewrite Hx. cbn [andb].
    rewrite IH by (intros Hin; apply Hc; now right).
    cbn [rev]. now rewrite <- app_assoc.
Qed.

Lemma split_piece (a b : jsstring) :
  ~ In c a -> split sep (a ++ sep ++ b) = a :: split sep b.
Proof. intros Hc. unfold split, sep. now rewrite (splitScan_piece _ _ _ Hc). Qed.

Lemma split_last (a : jsstring) :
  ~ In c a -> split sep a = [a].
Proof. intros Hc. unfold split, sep. now rewrite (splitScan_last _ _ Hc). Qed.

(** A string that includes the separator splits into two pieces at
    least. *)
Lemma splitScan_includes (s cur : jsstring) :
  includes sep s = true ->
  exists p0 p1 rest, splitScan sep s cur 0 = p0 :: p1 :: rest.
Proof.
  revert cur; induction s as [|x s IH]; intros cur Hin.
  - discriminate Hin.
  - cbn [includes] in Hin. cbn [splitScan].
    destruct (isPrefix sep (x :: s)) eqn:Hp.
    + destruct (splitScan sep s [] (List.length sep - 1)) as [|p1 rest] eqn:Hs.
      * now apply splitScan_nonempty in Hs.
      * now exists (rev cur), p1, rest.
    + apply IH. exact Hin.
Qed.

Lemma split_includes (s : jsstring) :
  includes sep s = true ->
  exists p0 p1 rest, split sep s = p0 :: p1 :: rest.
Proof. intros H. unfold split, sep. now apply splitScan_includes. Qed.

End SplitFacts.

Section TrimFacts.

Variable p : N -> bool.

Lemma dropWhile_decompose (s : jsstring) :
  exists w, s = w ++ dropWhile p s /\ Forall (fun x => p x = true) w.
Proof.
  induction s as [|x s [w [Hs Hw]]]; simpl.
  - now exists [].
  - destruct (p x) eqn:Hx.
    + exists (x :: w). split; [simpl; now f_equal|now constructor].
    + now exists [].
Qed.

Lemma isPrefix_snoc (sub s : jsstring) (x : N) :
  ~ In x sub -> isPrefix sub (s ++ [x]) = isPrefix sub s.
Proof.
  revert s; induction sub as [|y sub IH]; intros s Hx; [reflexivity|].
  assert (Hy : N.eqb y x = false).
  { apply N.eqb_neq. intros ->. apply Hx. now left. }
  destruct s as [|d s]; simpl.
  - now rewrite Hy.
  - rewrite IH; [reflexivity|]. intros Hin. apply Hx. now right.
Qed.

Lemma includes_snoc (sub s : jsstring) (x : N) :
  ~ In x sub -> includes sub (s ++ [x]) = includes sub s.
Proof.
  intros Hx. induction s as [|d s IH].
  - pose proof (isPrefix_snoc sub [] x Hx) as E. simpl in E |- *.
    rewrite E. now destruct (isPrefix sub []).
  - rewrite <- app_comm_cons. cbn [includes].
    rewrite IH, app_comm_cons, (isPrefix_snoc sub (d :: s) x Hx). reflexivity.
Qed.

Variable sub : jsstring.
Hypothesis sub_clean : Forall (fun x => p x = false) sub.

Lemma includes_app_dropped (s w : jsstring) :
  Forall (fun x => p x = true) w -> includes sub (s ++ w) = includes sub s.
Proof.
  induction w as [|x w IH] using rev_ind; intros Hw.
  - now rewrite app_nil_r.
  - apply Forall_app in Hw as [Hw Hx]. inversion Hx as [|? ? Hpx _]; subst.
    rewrite app_assoc, includes_snoc, IH; trivial.
    intros Hin. rewrite Forall_forall in sub_clean.
    specialize (sub_clean _ Hin). congruence.
Qed.

Lemma includes_dropWhile (s : jsstring) :
  sub <> [] -> includes sub (dropWhile p s) = includes sub s.
Proof.
  intros Hne. induction s as [|x s IH]; [reflexivity|].
  cbn [dropWhile]. destruct (p x) eqn:Hx; [|reflexivity].
  rewrite IH. cbn [includes].
  destruct sub as [|y sub0]; [congruence|].
  inversion sub_clean as [|? ? Hy _]; subst.
  cbn [isPrefix].
  assert (Hyx : N.eqb y x = false) by (apply N.eqb_neq; congruence).
  now rewrite Hyx.
Qed.

Lemma includes_rev_dropWhile_rev (s : jsstring) :
  includes sub (rev (dropWhile p (rev s))) = includes sub s.
Proof.
  destruct (dropWhile_decompose (rev s)) as [w [Hs Hw]].
  assert (Hs' : s = rev (dropWhile p (rev s)) ++ rev w).
  { rewrite <- rev_app_distr, <- Hs. now rewrite rev_involutive. }
  rewrite Hs' at 2. symmetry. apply includes_app_dropped.
  now apply Forall_rev.
Qed.

End TrimFacts.

(** Trimming neither adds nor removes an occurrence of [-->]. *)
Lemma includes_arrow_trim (l : jsstring) :
  includes arrow (trim l) = includes arrow l.
Proof.
  assert (Hclean : Forall (fun x => isWhiteSpace x = false) arrow).
  { repeat constructor. }
  unfold trim, trimEnd, trimStart.
  rewrite (includes_rev_dropWhile_rev _ _ Hclean).
  apply (includes_dropWhile _ _ Hclean). discriminate.
Qed.

(* ================================================================== *)
(** * The string and number primitives on sample arguments *)

Example split_arrow_sample :
  split (lit "-->") (lit "a-->b-->c") = [lit "a"; lit "b"; lit "c"]
  /\ split (lit "-->") (lit "a-->") = [lit "a"; []]
  /\ split (lit ":") [] = [[]]
  /\ split [] (lit "ab") = [lit "a"; lit "b"].
Proof. repeat split. Qed.

Example trim_sample :
  trim (9%N :: 160%N :: lit " a b " ++ [13%N; 10%N; 65279%N]) = lit "a b".
Proof. reflexivity. Qed.

Example parseInt_sample :
  parseInt (lit "007") = 7%float
  /\ parseInt (lit " 12abc") = 12%float
  /\ parseInt (lit "-0") = (-0)%float
  /\ parseInt (lit "0x1F") = 31%float
  /\ parseInt (lit "abc") = nan
  /\ parseInt [] = nan
  /\ parseInt (lit "9007199254740993") = 9007199254740992%float.
Proof. repeat split; vm_compute; reflexivity. Qed.

Example parseFloat_sample :
  parseFloat (lit "0.250") = 0.25%float
  /\ parseFloat (lit "1e3") = 1000%float
  /\ parseFloat (lit "5.") = 5%float
  /\ parseFloat (lit ".5e-1") = 0x1.999999999999ap-5%float
  /\ parseFloat (lit "0.1") = 0x1.999999999999ap-4%float
  /\ parseFloat (lit "-Infinityx") = neg_infinity
  /\ parseFloat (lit "1e400") = infinity
  /\ parseFloat (lit "5e-324") = 0x0.0000000000001p-1022%float
  /\ parseFloat (lit ".") = nan
  /\ parseFloat (lit "0.abc") = 0%float.
Proof. repeat split; vm_compute; reflexivity. Qed.

(* ================================================================== *)
(** * Digit strings under [parseInt] and [parseFloat] *)

Ltac eval_ch :=
  repeat match goal with
         | |- context [ch ?a] =>
             let v := eval vm_compute in (ch a) in change (ch a) with v
         end.

Lemma isDigit_range (c : N) : isDigit c = true -> (48 <= c <= 57)%N.
Proof.
  unfold isDigit. intros H. apply andb_prop in H as [H1 H2].
  apply N.leb_le in H1, H2. lia.
Qed.

Lemma digit_eqb_other (c k : N) :
  isDigit c = true -> (k < 48 \/ 57 < k)%N -> N.eqb c k = false.
Proof. intros H Hk. apply isDigit_range in H. apply N.eqb_neq. lia. Qed.

Ltac digit_tests H :=
  eval_ch;
  repeat match goal with
         | |- context [N.eqb ?c ?k] =>
             rewrite (digit_eqb_other c k H) by lia
         end.

Lemma digit_not_whitespace (c : N) : isDigit c = true -> isWhiteSpace c = false.
Proof.
  intros H. unfold isWhiteSpace. cbn [existsb]. digit_tests H.
  apply isDigit_range in H.
  assert (E : N.leb 8192 c = false) by (apply N.leb_gt; lia).
  now rewrite E.
Qed.

Lemma digitValue_digit (c : N) : isDigit c = true -> digitValue c = (Z.of_N c - 48)%Z.
Proof. intros H. unfold digitValue. now rewrite H. Qed.

Lemma isRadixDigit_digit (c : N) : isDigit c = true -> isRadixDigit 10 c = true.
Proof.
  intros H. unfold isRadixDigit. rewrite (digitValue_digit _ H).
  apply isDigit_range in H. apply Z.ltb_lt. lia.
Qed.

Lemma takeWhile_all (p : N -> bool) (s : jsstring) :
  Forall (fun c => p c = true) s -> takeWhile p s = s.
Proof.
  induction 1 as [|c s Hc _ IH]; simpl; [reflexivity|]. now rewrite Hc, IH.
Qed.

Lemma dropWhile_all (p : N -> bool) (s : jsstring) :
  Forall (fun c => p c = true) s -> dropWhile p s = [].
Proof.
  induction 1 as [|c s Hc _ IH]; simpl; [reflexivity|]. now rewrite Hc.
Qed.

Lemma radixValue_from (s : jsstring) (acc : Z) :
  Forall (fun c => isDigit c = true) s ->
  fold_left (fun a c => (10 * a + digitValue c)%Z) s acc
  = fold_left (fun a c => (10 * a + (Z.of_N c - 48))%Z) s acc.
Proof.
  intros H; revert acc; induction H as [|c s Hc _ IH]; intros acc;
    cbn [fold_left].
  - reflexivity.
  - now rewrite (digitValue_digit _ Hc), IH.
Qed.

Lemma radixValue_decimal (s : jsstring) :
  Forall (fun c => isDigit c = true) s -> radixValue 10 s = Spec.decimal s.
Proof. intros H. apply (radixValue_from s 0 H). Qed.

Lemma decimal_from_nonneg (s : jsstring) (acc : Z) :
  Forall (fun c => isDigit c = true) s -> (0 <= acc)%Z ->
  (0 <= fold_left (fun a c => (10 * a + (Z.of_N c - 48))%Z) s acc)%Z.
Proof.
  intros H; revert acc; induction H as [|c s Hc _ IH]; intros acc Hacc;
    cbn [fold_left].
  - exact Hacc.
  - apply IH. apply isDigit_range in Hc. lia.
Qed.

Lemma decimal_nonneg (s : jsstring) :
  Forall (fun c => isDigit c = true) s -> (0 <= Spec.decimal s)%Z.
Proof. intros H. apply decimal_from_nonneg; [exact H|lia]. Qed.

Lemma digits_all (s : jsstring) :
  Spec.digits s -> Forall (fun c => isRadixDigit 10 c = true) s.
Proof.
  intros [_ H]. eapply Forall_impl; [|exact H]. apply isRadixDigit_digit.
Qed.

(** [parseInt] of a digit string is the Number of the integer it writes. *)
Lemma parseInt_digits (s : jsstring) :
  Spec.digits s -> parseInt s = Spec.fieldValue s.
Proof.
  intros Hd. pose proof (digits_all s Hd) as Hall. destruct Hd as [Hne Hs].
  unfold Spec.fieldValue. rewrite <- (radixValue_decimal _ Hs).
  destruct s as [|c r]; [congruence|].
  inversion Hs as [|? ? Hc Hr]; subst.
  unfold parseInt, trimStart. cbn [dropWhile].
  rewrite (digit_not_whitespace _ Hc).
  unfold readSign. digit_tests Hc.
  destruct r as [|c1 r'].
  - rewrite (takeWhile_all _ _ Hall). reflexivity.
  - inversion Hr as [|? ? Hc1 _]; subst. digit_tests Hc1.
    rewrite andb_false_r. rewrite (takeWhile_all _ _ Hall). reflexivity.
Qed.

Lemma ofDecimal_integer (m : Z) : ofDecimal false m 0 = ofInteger false m.
Proof.
  unfold ofDecimal. destruct (Z.eqb_spec m 0) as [->|_]; [reflexivity|].
  change (0 <=? 0)%Z with true. cbv iota.
  change (10 ^ 0)%Z with 1%Z. now rewrite Z.mul_1_r.
Qed.

(** [parseFloat] of a digit string is the Number of the integer it writes. *)
Lemma parseFloat_digits (s : jsstring) :
  Spec.digits s -> parseFloat s = Spec.fieldValue s.
Proof.
  intros [Hne Hs].
  unfold Spec.fieldValue. rewrite <- (radixValue_decimal _ Hs).
  rewrite <- ofDecimal_integer.
  destruct s as [|c r]; [congruence|].
  inversion Hs as [|? ? Hc Hr]; subst.
  unfold parseFloat, trimStart. cbn [dropWhile].
  rewrite (digit_not_whitespace _ Hc).
  unfold readSign. digit_tests Hc.
  change (lit "Infinity") with (73%N :: lit "nfinity"). cbn [isPrefix].
  rewrite (N.eqb_sym 73 c), (digit_eqb_other c 73 Hc) by lia. cbn [andb].
  rewrite (takeWhile_all _ _ Hs), (dropWhile_all _ _ Hs), app_nil_r.
  reflexivity.
Qed.

(** [parseFloat] of ["0."] followed by digits is the Number of the
    fraction. *)
Lemma parseFloat_fraction (f : jsstring) :
  Spec.digits f -> parseFloat (lit "0." ++ f) = Spec.fractionValue f.
Proof.
  intros [Hne Hf].
  change (lit "0." ++ f) with (48%N :: 46%N :: f).
  unfold parseFloat, trimStart. cbn [dropWhile].
  change (isWhiteSpace 48) with false. cbv iota.
  unfold readSign. eval_ch.
  change (N.eqb 48 45) with false. change (N.eqb 48 43) with false. cbv iota.
  change (lit "Infinity") with (73%N :: lit "nfinity"). cbn [isPrefix].
  change (N.eqb 73 48) with false. cbn [andb takeWhile dropWhile].
  change (isDigit 48) with true. change (isDigit 46) with false. cbv iota.
  change (N.eqb 46 46) with true. cbv iota.
  rewrite (takeWhile_all _ _ Hf), (dropWhile_all _ _ Hf).
  cbn [app].
  assert (Hv : radixValue 10 (48%N :: f) = Spec.decimal f).
  { rewrite <- (radixValue_decimal _ Hf). reflexivity. }
  rewrite Hv. unfold readExponent, Spec.fractionValue, ofDecimal.
  destruct (Z.eqb_spec (Spec.decimal f) 0) as [_|_]; [reflexivity|].
  assert (Hlen : (0 < Z.of_nat (List.length f))%Z).
  { destruct f; [congruence|]. cbn [List.length]. lia. }
  assert (Hneg : (0 <=? 0 - Z.of_nat (List.length f))%Z = false)
    by (apply Z.leb_gt; lia).
  rewrite Hneg. f_equal. f_equal. lia.
Qed.

(* ================================================================== *)
(** * parseTimestamp on the timestamp grammar *)

Lemma digits_avoid (k : N) (s : jsstring) :
  Forall (fun c => isDigit c = true) s -> (k < 48 \/ 57 < k)%N -> ~ In k s.
Proof.
  intros Hs Hk Hin. rewrite Forall_forall in Hs.
  apply Hs, isDigit_range in Hin. lia.
Qed.

Lemma lastField_no_colon (s : jsstring) (fraction : option jsstring) :
  Spec.digits s -> (forall f, fraction = Some f -> Spec.digits f) ->
  ~ In 58%N (s ++ Spec.fractionTail fraction).
Proof.
  intros [_ Hs] Hf Hin. apply in_app_or in Hin as [Hin|Hin].
  - revert Hin. apply digits_avoid; [exact Hs|lia].
  - destruct fraction as [f|]; [|exact Hin].
    destruct (Hf f eq_refl) as [_ Hf'].
    change (lit "." ++ f) with (46%N :: f) in Hin. destruct Hin as [Hin|Hin].
    + discriminate Hin.
    + revert Hin. apply digits_avoid; [exact Hf'|lia].
Qed.

Lemma split_colon_piece (a b : jsstring) :
  Spec.digits a -> split (lit ":") (a ++ lit ":" ++ b) = a :: split (lit ":") b.
Proof.
  intros [_ Ha]. apply (split_piece 58 [] a b).
  apply digits_avoid; [exact Ha|lia].
Qed.

Lemma split_colon_lastField (s : jsstring) (fraction : option jsstring) :
  Spec.digits s -> (forall f, fraction = Some f -> Spec.digits f) ->
  split (lit ":") (s ++ Spec.fractionTail fraction) = [s ++ Spec.fractionTail fraction].
Proof.
  intros Hs Hf. apply (split_last 58 []). now apply lastField_no_colon.
Qed.

Lemma split_dot_lastField (s : jsstring) (fraction : option jsstring) :
  Spec.digits s -> (forall f, fraction = Some f -> Spec.digits f) ->
  split (lit ".") (s ++ Spec.fractionTail fraction)
  = s :: match fraction with Some f => [f] | None => [] end.
Proof.
  intros [_ Hs] Hf.
  assert (Hdot : forall x, Forall (fun c => isDigit c = true) x -> ~ In 46%N x)
    by (intros x Hx; apply digits_avoid; [exact Hx|lia]).
  destruct fraction as [f|]; cbn [Spec.fractionTail].
  - destruct (Hf f eq_refl) as [_ Hf'].
    rewrite <- (app_nil_r f) at 1.
    change (lit "." ++ f ++ []) with ([46%N] ++ f ++ []).
    change (lit ".") with [46%N].
    rewrite (app_nil_r f).
    rewrite (split_piece 46 [] s f (Hdot _ Hs)).
    now rewrite (split_last 46 [] f (Hdot _ Hf')).
  - rewrite app_nil_r. apply (split_last 46 []). now apply Hdot.
Qed.

(** The seconds that [parseTimestamp] adds after the colon fields. *)
Lemma parseTimestamp_eq (timestamp : jsstring) :
  parseTimestamp timestamp
  = (let parts := split (lit ":") timestamp in
     lastPart <- receiver (nth_error parts (List.length parts - 1)) ;;
     let seconds := split (lit ".") lastPart in
     let whole :=
       if List.length parts =? 3 then
         (parseInt (toStr (nth_error parts 0)) * 3600
          + parseInt (toStr (nth_error parts 1)) * 60
          + parseFloat (toStr (nth_error seconds 0)))%float
       else if List.length parts =? 2 then
         (parseInt (toStr (nth_error parts 0)) * 60
          + parseFloat (toStr (nth_error seconds 0)))%float
       else parseFloat (toStr (nth_error seconds 0)) in
     Ok (if 1 <? List.length seconds
         then (whole + parseFloat (lit "0." ++ toStr (nth_error seconds 1)))%float
         else whole)).
Proof. reflexivity. Qed.

Lemma parseTimestamp_grammar (fields : list jsstring) (fraction : option jsstring) :
  Spec.wellFormed fields fraction ->
  parseTimestamp (Spec.timestampText fields fraction)
  = Ok (Spec.totalSeconds fields fraction).
Proof.
  intros [Hlen [Hfields Hfrac]].
  assert (Htext : Spec.timestampText fields fraction
                  = join (lit ":") fields ++ Spec.fractionTail fraction) by reflexivity.
  rewrite Htext, parseTimestamp_eq. clear Htext.
  destruct fields as [|f1 [|f2 [|f3 [|f4 r]]]]; cbn [List.length] in Hlen; try lia.
  - (* SS[.mmm] *)
    inversion Hfields as [|? ? H1 _]; subst. cbn [join].
    rewrite (split_colon_lastField f1 fraction H1 Hfrac).
    cbn [List.length Nat.sub nth_error receiver bind Nat.eqb].
    rewrite (split_dot_lastField f1 fraction H1 Hfrac).
    cbn [nth_error toStr]. rewrite (parseFloat_digits _ H1).
    destruct fraction as [f|]; cbn [List.length Nat.ltb Nat.leb nth_error toStr].
    + now rewrite (parseFloat_fraction _ (Hfrac f eq_refl)).
    + reflexivity.
  - (* MM:SS[.mmm] *)
    inversion Hfields as [|? ? H1 Hrest]; subst.
    inversion Hrest as [|? ? H2 _]; subst. cbn [join].
    rewrite <- !app_assoc.
    rewrite (split_colon_piece f1 _ H1).
    rewrite (split_colon_lastField f2 fraction H2 Hfrac).
    cbn [List.length Nat.sub nth_error receiver bind Nat.eqb].
    rewrite (split_dot_lastField f2 fraction H2 Hfrac).
    cbn [nth_error toStr].
    rewrite (parseInt_digits _ H1), (parseFloat_digits _ H2).
    destruct fraction as [f|]; cbn [List.length Nat.ltb Nat.leb nth_error toStr].
    + now rewrite (parseFloat_fraction _ (Hfrac f eq_refl)).
    + reflexivity.
  - (* HH:MM:SS[.mmm] *)
    inversion Hfields as [|? ? H1 Hrest]; subst.
    inversion Hrest as [|? ? H2 Hrest']; subst.
    inversion Hrest' as [|? ? H3 _]; subst. cbn [join].
    rewrite <- !app_assoc.
    rewrite (split_colon_piece f1 _ H1), (split_colon_piece f2 _ H2).
    rewrite (split_colon_lastField f3 fraction H3 Hfrac).
    cbn [List.length Nat.sub nth_error receiver bind Nat.eqb].
    rewrite (split_dot_lastField f3 fraction H3 Hfrac).
    cbn [nth_error toStr].
    rewrite (parseInt_digits _ H1), (parseInt_digits _ H2), (parseFloat_digits _ H3).
    destruct fraction as [f|]; cbn [List.length Nat.ltb Nat.leb nth_error toStr].
    + now rewrite (parseFloat_fraction _ (Hfrac f eq_refl)).
    + reflexivity.
Qed.

(* ================================================================== *)
(** * Signs of rounded values

    Rounding a non-negative mantissa gives a non-negative float, so sums and
    products of the values of digit fields are never negative and never
    NaN. *)

Section RoundingSigns.

Lemma shr_1_nonneg (mrs : shr_record) :
  (0 <= shr_m mrs)%Z -> (0 <= shr_m (shr_1 mrs))%Z.
Proof.
  destruct mrs as [m r s]. cbn [shr_m]. intros Hm.
  destruct m as [|[q|q|]|q]; cbn; lia.
Qed.

Lemma iter_shr_1_nonneg (n : positive) (mrs : shr_record) :
  (0 <= shr_m mrs)%Z -> (0 <= shr_m (iter_pos shr_1 n mrs))%Z.
Proof.
  revert mrs; induction n as [n IH|n IH|]; intros mrs Hm; cbn [iter_pos].
  - apply IH, IH, shr_1_nonneg, Hm.
  - apply IH, IH, Hm.
  - apply shr_1_nonneg, Hm.
Qed.

Lemma shr_fexp_nonneg (m e : Z) (l : location) :
  (0 <= m)%Z -> (0 <= shr_m (fst (shr_fexp prec emax m e l)))%Z.
Proof.
  intros Hm. unfold shr_fexp, shr.
  assert (H0 : (0 <= shr_m (shr_record_of_loc m l))%Z)
    by (destruct l as [|[| |]]; exact Hm).
  destruct (fexp prec emax (Zdigits2 m + e) - e)%Z; cbn [fst]; trivial.
  now apply iter_shr_1_nonneg.
Qed.

Lemma round_nearest_even_nonneg (mx : Z) (lx : location) :
  (0 <= mx)%Z -> (0 <= round_nearest_even mx lx)%Z.
Proof.
  intros Hm. unfold round_nearest_even.
  destruct lx as [|[| |]]; try destruct (Z.even mx); lia.
Qed.

Lemma binary_round_aux_nonneg (mx ex : Z) (lx : location) :
  (0 <= mx)%Z -> Spec.sfNonneg (binary_round_aux prec emax false mx ex lx) = true.
Proof.
  intros Hm. unfold binary_round_aux.
  pose proof (shr_fexp_nonneg mx ex lx Hm) as H1.
  destruct (shr_fexp prec emax mx ex lx) as [mrs' e']. cbn [fst] in H1.
  pose proof (shr_fexp_nonneg _ e' loc_Exact
                (round_nearest_even_nonneg _ (loc_of_shr_record mrs') H1)) as H2.
  destruct (shr_fexp prec emax _ e' loc_Exact) as [mrs'' e'']. cbn [fst] in H2.
  destruct (shr_m mrs'') as [|q|q]; [reflexivity| |lia].
  destruct (e'' <=? emax - prec)%Z; reflexivity.
Qed.

Lemma binary_round_nonneg (m : positive) (e : Z) :
  Spec.sfNonneg (binary_round prec emax false m e) = true.
Proof.
  unfold binary_round. destruct (shl_align m e _) as [mz ez].
  apply binary_round_aux_nonneg. lia.
Qed.

Lemma binary_normalize_nonneg (m e : Z) (szero : bool) :
  (0 <= m)%Z -> Spec.sfNonneg (binary_normalize prec emax m e szero) = true.
Proof.
  intros Hm. destruct m as [|q|q]; [reflexivity| |lia].
  apply binary_round_nonneg.
Qed.

Lemma SFadd_nonneg (x y : spec_float) :
  Spec.sfNonneg x = true -> Spec.sfNonneg y = true ->
  Spec.sfNonneg (SFadd prec emax x y) = true.
Proof.
  destruct x as [sx|sx| |sx mx ex]; destruct y as [sy|sy| |sy my ey];
    try destruct sx; try destruct sy; intros Hx Hy;
    try discriminate Hx; try discriminate Hy; try reflexivity.
  unfold SFadd. apply binary_normalize_nonneg. cbn [cond_Zopp]. lia.
Qed.

Lemma SFmul_nonneg (x : spec_float) (m : positive) (e : Z) :
  Spec.sfNonneg x = true ->
  Spec.sfNonneg (SFmul prec emax x (S754_finite false m e)) = true.
Proof.
  destruct x as [sx|sx| |sx mx ex]; try destruct sx; intros Hx;
    try discriminate Hx; try reflexivity.
  unfold SFmul. cbn [xorb]. apply binary_round_aux_nonneg. lia.
Qed.

Lemma SFldexp_nonneg (x : spec_float) (e : Z) :
  Spec.sfNonneg x = true -> Spec.sfNonneg (SFldexp prec emax x e) = true.
Proof.
  destruct x as [sx|sx| |sx mx ex]; cbn [SFldexp]; trivial.
  destruct sx; [discriminate|]. intros _. apply binary_round_nonneg.
Qed.

(** Back and forth through the primitive floats. *)
Lemma Prim2SF_SF2Prim_nonneg (x : spec_float) :
  Spec.sfNonneg x = true -> Spec.sfNonneg (Prim2SF (SF2Prim x)) = true.
Proof.
  destruct x as [sx|sx| |sx mx ex]; try destruct sx; intros Hx;
    try discriminate Hx; try (vm_compute; reflexivity).
  unfold SF2Prim, Z.ldexp.
  rewrite FloatAxioms.ldshiftexp_spec, FloatAxioms.of_uint63_spec.
  apply SFldexp_nonneg, binary_normalize_nonneg.
  apply Uint63.to_Z_bounded.
Qed.

Lemma nonneg_spec (x : number) : Spec.nonneg x = Spec.sfNonneg (Prim2SF x).
Proof. unfold Spec.nonneg, leb. now rewrite FloatAxioms.leb_spec. Qed.

Lemma nonneg_add (x y : number) :
  Spec.nonneg x = true -> Spec.nonneg y = true -> Spec.nonneg (x + y)%float = true.
Proof.
  rewrite !nonneg_spec, FloatAxioms.add_spec. apply SFadd_nonneg.
Qed.

Lemma nonneg_mul_3600 (x : number) :
  Spec.nonneg x = true -> Spec.nonneg (x * 3600)%float = true.
Proof.
  rewrite !nonneg_spec, FloatAxioms.mul_spec.
  assert (E : Prim2SF 3600%float = S754_finite false 7916483719987200 (-41))
    by (vm_compute; reflexivity).
  rewrite E. apply SFmul_nonneg.
Qed.

Lemma nonneg_mul_60 (x : number) :
  Spec.nonneg x = true -> Spec.nonneg (x * 60)%float = true.
Proof.
  rewrite !nonneg_spec, FloatAxioms.mul_spec.
  assert (E : Prim2SF 60%float = S754_finite false 8444249301319680 (-47))
    by (vm_compute; reflexivity).
  rewrite E. apply SFmul_nonneg.
Qed.

Lemma nonneg_ofInteger (n : Z) :
  (0 <= n)%Z -> Spec.nonneg (ofInteger false n) = true.
Proof.
  intros Hn. rewrite nonneg_spec. unfold ofInteger.
  now apply Prim2SF_SF2Prim_nonneg, binary_normalize_nonneg.
Qed.

Lemma nonneg_ofRatio (p q : Z) :
  (0 <= p)%Z -> (0 < q)%Z -> Spec.nonneg (ofRatio false p q) = true.
Proof.
  intros Hp Hq. rewrite nonneg_spec. unfold ofRatio, SFdiv_core_binary.
  set (e' := Z.min _ _). set (m' := match (0 - 0 - e')%Z with
                                    | Z0 => p
                                    | Zpos _ => Z.shiftl p (0 - 0 - e')
                                    | Zneg _ => 0%Z
                                    end).
  assert (Hm' : (0 <= m')%Z).
  { unfold m'. destruct (0 - 0 - e')%Z; [exact Hp| |lia].
    now apply Z.shiftl_nonneg. }
  pose proof (Z.div_pos m' q Hm' Hq) as Hdiv. unfold Z.div in Hdiv.
  destruct (Z.div_eucl m' q) as [qz r].
  now apply Prim2SF_SF2Prim_nonneg, binary_round_aux_nonneg.
Qed.

(** NaN is absorbing for the sum and compares with nothing. *)
Lemma add_nan_r (x : number) : (x + nan)%float = nan.
Proof.
  apply Prim2SF_inj. rewrite FloatAxioms.add_spec.
  change (Prim2SF nan) with S754_nan. now destruct (Prim2SF x) as [[]|[]| |].
Qed.

Lemma add_nan_l (x : number) : (nan + x)%float = nan.
Proof.
  apply Prim2SF_inj. rewrite FloatAxioms.add_spec.
  change (Prim2SF nan) with S754_nan. reflexivity.
Qed.

Lemma leb_nan_r (x : number) : leb x nan = false.
Proof.
  unfold leb. rewrite FloatAxioms.leb_spec. change (Prim2SF nan) with S754_nan.
  now destruct (Prim2SF x).
Qed.

Lemma leb_nan_l (x : number) : leb nan x = false.
Proof.
  unfold leb. rewrite FloatAxioms.leb_spec. change (Prim2SF nan) with S754_nan.
  reflexivity.
Qed.

End RoundingSigns.

(* ================================================================== *)
(** * Values of grammar timestamps are not negative *)

Lemma fieldValue_nonneg (s : jsstring) :
  Spec.digits s -> Spec.nonneg (Spec.fieldValue s) = true.
Proof.
  intros [_ Hs]. apply nonneg_ofInteger, decimal_nonneg, Hs.
Qed.

Lemma fractionValue_nonneg (f : jsstring) :
  Spec.digits f -> Spec.nonneg (Spec.fractionValue f) = true.
Proof.
  intros [_ Hf]. unfold Spec.fractionValue.
  destruct (Spec.decimal f =? 0)%Z; [vm_compute; reflexivity|].
  apply nonneg_ofRatio; [now apply decimal_nonneg|].
  apply Z.pow_pos_nonneg; lia.
Qed.

Lemma totalSeconds_nonneg (fields : list jsstring) (fraction : option jsstring) :
  Spec.wellFormed fields fraction ->
  Spec.nonneg (Spec.totalSeconds fields fraction) = true.
Proof.
  intros [Hlen [Hfields Hfrac]].
  assert (Hwhole : Spec.nonneg (Spec.wholeSeconds fields) = true).
  { destruct fields as [|f1 [|f2 [|f3 [|f4 r]]]]; cbn [List.length] in Hlen; try lia;
      repeat match goal with
             | H : Forall _ (_ :: _) |- _ => inversion H; clear H; subst
             end;
      cbn [Spec.wholeSeconds];
      repeat first [apply nonneg_add | apply nonneg_mul_3600 | apply nonneg_mul_60
                   | now apply fieldValue_nonneg]. }
  unfold Spec.totalSeconds. destruct fraction as [f|]; [|exact Hwhole].
  apply nonneg_add; [exact Hwhole|]. apply fractionValue_nonneg. now apply Hfrac.
Qed.

(* ================================================================== *)
(** * parseTimestamp and parseVTT always return *)

Lemma split_nonempty (sep s : jsstring) : sep <> [] -> split sep s <> [].
Proof.
  intros Hsep. destruct sep as [|c sep']; [congruence|].
  apply splitScan_nonempty.
Qed.

Lemma nth_error_last_some {A : Type} (l : list A) :
  l <> [] -> exists x, nth_error l (List.length l - 1) = Some x.
Proof.
  intros Hl. destruct (nth_error l (List.length l - 1)) as [x|] eqn:E.
  - now exists x.
  - apply nth_error_None in E. destruct l; [congruence|]. cbn [List.length] in E. lia.
Qed.

Lemma parseTimestamp_returns (s : jsstring) :
  parseTimestamp s = Ok (Spec.stamp s).
Proof.
  assert (H : exists v, parseTimestamp s = Ok v).
  { rewrite parseTimestamp_eq. cbv zeta.
    destruct (nth_error_last_some (split (lit ":") s)) as [x Hx].
    - apply split_nonempty. discriminate.
    - rewrite Hx. cbn [receiver bind]. eexists. reflexivity. }
  destruct H as [v Hv]. unfold Spec.stamp. now rewrite Hv.
Qed.

Section ParseLoops.

Variable lines : list jsstring.

Lemma line_at (i : nat) :
  i < List.length lines ->
  exists l, nth_error lines i = Some l /\ skipn i lines = l :: skipn (S i) lines.
Proof.
  revert i. induction lines as [|x ls IH]; intros i Hi; cbn [List.length] in Hi.
  - lia.
  - destruct i as [|i].
    + exists x. split; reflexivity.
    + destruct (IH i) as [l [Hl Hs]]; [lia|].
      exists l. split; [exact Hl|]. cbn [skipn]. exact Hs.
Qed.

Lemma past_end (i : nat) : List.length lines <= i -> skipn i lines = [].
Proof. apply skipn_all2. Qed.

Lemma skipHeader_returns (fuel i : nat) :
  List.length lines - i < fuel ->
  exists j, skipHeader fuel lines i = Ok j
            /\ skipn j lines = Spec.skipToTiming (skipn i lines).
Proof.
  revert i; induction fuel as [|fuel IH]; intros i Hfuel; [lia|].
  cbn [skipHeader]. destruct (Nat.ltb_spec i (List.length lines)) as [Hi|Hi].
  - destruct (line_at i Hi) as [l [Hl Hs]].
    rewrite Hl, Hs. cbn [receiver bind Spec.skipToTiming].
    unfold Spec.isTimingLine.
    destruct (includes arrow l); cbn [negb].
    + exists i. now rewrite Hs.
    + apply IH. lia.
  - exists i. split; [reflexivity|]. now rewrite (past_end i Hi).
Qed.

End ParseLoops.

Lemma join_snoc (sep : jsstring) (ls : list jsstring) (t : jsstring) :
  ls <> [] -> join sep (ls ++ [t]) = join sep ls ++ sep ++ t.
Proof.
  induction ls as [|x ls IH]; intros Hne; [congruence|].
  destruct ls as [|y ls].
  - reflexivity.
  - change (join sep ((x :: y :: ls) ++ [t])) with (x ++ sep ++ join sep ((y :: ls) ++ [t])).
    rewrite IH by discriminate.
    change (join sep (x :: y :: ls)) with (x ++ sep ++ join sep (y :: ls)).
    now rewrite <- !app_assoc.
Qed.

Lemma join_isEmpty (sep : jsstring) (ls : list jsstring) :
  Forall (fun l => isEmpty l = false) ls ->
  isEmpty (join sep ls) = isEmpty (List.concat ls).
Proof.
  intros H. destruct H as [|x ls Hx _]; [reflexivity|].
  destruct x as [|c x]; [discriminate Hx|].
  destruct ls; reflexivity.
Qed.

(** One more consumed line: the text grown by the loop is the join of the
    lines consumed. *)
Lemma text_step (ls : list jsstring) (t : jsstring) :
  Forall (fun l => isEmpty l = false) ls ->
  (if negb (isEmpty (join (lit " ") ls)) then join (lit " ") ls ++ lit " "
   else join (lit " ") ls) ++ t
  = join (lit " ") (ls ++ [t]).
Proof.
  intros H. destruct ls as [|x ls].
  - reflexivity.
  - rewrite join_snoc by discriminate.
    rewrite (join_isEmpty _ _ H).
    inversion H as [|? ? Hx _]; subst.
    destruct x as [|c x]; [discriminate Hx|].
    cbn [List.concat app isEmpty negb]. now rewrite <- app_assoc.
Qed.

Section CueLoops.

Variable lines : list jsstring.

Lemma readText_returns (fuel i : nat) (o : Spec.OpenCue) :
  List.length lines - i < fuel ->
  Forall (fun l => isEmpty l = false) (Spec.openLines o) ->
  exists j text',
    readText fuel lines i (join (lit " ") (Spec.openLines o)) = Ok (j, text')
    /\ i <= j
    /\ Spec.cuesOf (Some o) (skipn i lines)
       = mkCue (Spec.openStart o) (Spec.openEnd o) text'
           :: Spec.cuesOf None (skipn (S j) lines).
Proof.
  revert i o; induction fuel as [|fuel IH]; intros i o Hfuel Ho; [lia|].
  cbn [readText]. destruct (Nat.ltb_spec i (List.length lines)) as [Hi|Hi].
  - destruct (line_at lines i Hi) as [l [Hl Hs]].
    rewrite Hl, Hs. cbn [receiver bind Spec.cuesOf]. unfold Spec.isBlank.
    destruct (isEmpty (trim l)) eqn:Hblank; cbn [negb].
    + exists i, (join (lit " ") (Spec.openLines o)). repeat split; trivial.
    + rewrite (text_step _ (trim l) Ho).
      destruct (IH (S i) (Spec.addLine o l)) as [j [text' [Hr [Hij Hc]]]].
      * lia.
      * cbn [Spec.addLine Spec.openLines]. apply Forall_app. split; [exact Ho|].
        now constructor.
      * exists j, text'. cbn [Spec.addLine Spec.openLines] in Hr.
        repeat split; [exact Hr|lia|exact Hc].
  - exists i, (join (lit " ") (Spec.openLines o)).
    rewrite (past_end lines i Hi), (past_end lines (S i)) by lia.
    repeat split; trivial.
Qed.

Lemma parseCues_returns (fuel i : nat) (cs : list Cue) :
  List.length lines - i < fuel ->
  parseCues fuel lines i cs = Ok (cs ++ Spec.cuesOf None (skipn i lines)).
Proof.
  revert i cs; induction fuel as [|fuel IH]; intros i cs Hfuel; [lia|].
  cbn [parseCues]. destruct (Nat.ltb_spec i (List.length lines)) as [Hi|Hi].
  - destruct (line_at lines i Hi) as [l [Hl Hs]].
    rewrite Hl, Hs. cbn [receiver bind Spec.cuesOf]. unfold Spec.isTimingLine.
    rewrite includes_arrow_trim.
    destruct (includes arrow l) eqn:Htiming.
    + rewrite <- includes_arrow_trim in Htiming.
      destruct (split_includes _ _ _ Htiming) as [p0 [p1 [rest Hsplit]]].
      change (split arrow (trim l) = p0 :: p1 :: rest) in Hsplit. rewrite Hsplit.
      cbn [nth_error receiver bind]. rewrite !parseTimestamp_returns.
      cbn [bind].
      destruct (readText_returns fuel (S i) (Spec.openCue l))
        as [j [text' [Hr [Hij Hc]]]]; [lia|constructor|].
      cbn [Spec.openCue Spec.openLines join] in Hr. rewrite Hr. cbn [bind].
      rewrite IH by lia. rewrite Hc, <- app_assoc. cbn [app].
      unfold Spec.openCue, Spec.field. rewrite Hsplit.
      cbn [Spec.openStart Spec.openEnd nth]. reflexivity.
    + apply IH. lia.
  - rewrite (past_end lines i Hi). now rewrite app_nil_r.
Qed.

End CueLoops.

(** [parseVTT] appends the cues that the specification reads in the text;
    any budget above the number of lines gives the same. *)
Lemma parseVTTWith_returns (fuel : nat) (vttText : jsstring) (this : AudioPlayer) :
  List.length (split newline vttText) < fuel ->
  parseVTTWith fuel vttText this
  = Ok (withManualCues this (manualCues this ++ Spec.parse vttText)).
Proof.
  intros Hfuel. unfold parseVTTWith.
  destruct (skipHeader_returns (split newline vttText) fuel 0) as [j [Hj Hs]]; [lia|].
  rewrite Hj. cbn [bind]. rewrite parseCues_returns by lia. cbn [bind].
  rewrite Hs. reflexivity.
Qed.

Lemma parseVTT_returns (vttText : jsstring) (this : AudioPlayer) :
  parseVTT vttText this
  = Ok (withManualCues this (manualCues this ++ Spec.parse vttText)).
Proof. apply parseVTTWith_returns. lia. Qed.

(* ================================================================== *)
(** * Timestamps and cues: the parser *)

Lemma digits_of_test (s : jsstring) :
  negb (isEmpty s) && forallb isDigit s = true -> Spec.digits s.
Proof.
  intros H. apply andb_prop in H as [Hne Hall]. split.
  - intros ->. discriminate Hne.
  - rewrite Forall_forall. now apply forallb_forall.
Qed.

(** C1.  A timestamp of the grammar, with one to three colon-delimited
    digit fields and an optional fraction, parses to
    [H*3600 + M*60 + S + 0.fff], the fields present being decided by their
    count; the sums and products are those of binary64 Numbers, as in the
    source.  In particular ["00:01:05.250"] and ["01:05.250"] give 65.25 and
    ["5.250"] gives 5.25. *)
Theorem parseTimestamp_field_count :
  (forall fields fraction,
      Spec.wellFormed fields fraction ->
      parseTimestamp (Spec.timestampText fields fraction)
      = Ok (Spec.totalSeconds fields fraction))
  /\ parseTimestamp (lit "00:01:05.250") = Ok 65.25%float
  /\ parseTimestamp (lit "01:05.250") = Ok 65.25%float
  /\ parseTimestamp (lit "5.250") = Ok 5.25%float.
Proof.
  split; [exact parseTimestamp_grammar|].
  repeat split; vm_compute; reflexivity.
Qed.

Lemma parseTimestamp_field_count_witness :
  Spec.wellFormed [lit "00"; lit "01"; lit "05"] (Some (lit "250"))
  /\ parseTimestamp (Spec.timestampText [lit "00"; lit "01"; lit "05"] (Some (lit "250")))
     = Ok (Spec.totalSeconds [lit "00"; lit "01"; lit "05"] (Some (lit "250"))).
Proof.
  assert (H : Spec.wellFormed [lit "00"; lit "01"; lit "05"] (Some (lit "250"))).
  { split; [cbn; lia|]. split.
    - repeat constructor; apply digits_of_test; reflexivity.
    - intros f Hf. injection Hf as <-. apply digits_of_test. reflexivity. }
  split; [exact H|].
  exact (proj1 parseTimestamp_field_count _ _ H).
Defined.

(** C2.  [parseVTT] refines the parse of the specification: lines before the
    first one containing [-->] are skipped; a timing line is split at [-->]
    into its first two fields, each trimmed and parsed as a timestamp; the
    non-blank lines that follow are consumed, each trimmed, and joined with a
    single space; a blank line or the end of the input ends the text; the cue
    is appended to the stored ones.  The sample block gives exactly one cue,
    from 1.0 to 3.0 with text ["Hello world"]. *)
Theorem parseVTT_refines_parse :
  (forall vttText this,
      parseVTT vttText this
      = Ok (withManualCues this (manualCues this ++ Spec.parse vttText)))
  /\ parseVTT Samples.cueBlock Samples.fresh
     = Ok (withManualCues Samples.fresh [mkCue 1%float 3%float (lit "Hello world")]).
Proof.
  split; [exact parseVTT_returns|].
  vm_compute. reflexivity.
Qed.

(* ================================================================== *)
(** * Resolution of the active cue *)

Lemma scanCues_first (t : number) (cs : list Cue) :
  match scanCues t cs with
  | Some c =>
      exists before after,
        cs = before ++ c :: after
        /\ Forall (fun x => covers t x = false) before
        /\ covers t c = true
  | None => Forall (fun x => covers t x = false) cs
  end.
Proof.
  induction cs as [|x cs IH]; cbn [scanCues]; [constructor|].
  destruct (covers t x) eqn:Hx.
  - exists [], cs. repeat split; trivial.
  - destruct (scanCues t cs) as [c|].
    + destruct IH as [before [after [Hcs [Hb Hc]]]].
      exists (x :: before), after. rewrite Hcs. repeat split; trivial.
      now constructor.
    + now constructor.
Qed.

Lemma findCurrentCue_consulted (this : AudioPlayer) :
  findCurrentCue this = scanCues (currentTime (player this)) (Spec.consultedCues this).
Proof.
  unfold findCurrentCue, Spec.consultedCues.
  destruct (nativeCues this); [reflexivity|].
  now destruct (manualCues this).
Qed.

(** C3.  The lookup of [updateSubtitleByTime] scans the consulted track in
    stored order and takes the first cue with
    [startTime <= currentTime <= endTime], both ends included: the cues
    stored before the one returned do not cover the time, and nothing is
    returned only when no cue covers it.  With A over [0,5] stored before B
    over [2,7], time 3 resolves to A. *)
Theorem findCurrentCue_first_match (this : AudioPlayer) :
  let t := currentTime (player this) in
  findCurrentCue this = scanCues t (Spec.consultedCues this)
  /\ match scanCues t (Spec.consultedCues this) with
     | Some c =>
         exists before after,
           Spec.consultedCues this = before ++ c :: after
           /\ Forall (fun x => covers t x = false) before
           /\ covers t c = true
     | None => Forall (fun x => covers t x = false) (Spec.consultedCues this)
     end
  /\ (forall c, covers t c = ((startTime c <=? t)%float && (t <=? endTime c)%float))
  /\ scanCues 3%float [Samples.cueA; Samples.cueB] = Some Samples.cueA
  /\ findCurrentCue
       (Samples.nativeAt 3%float false [Samples.cueA; Samples.cueB] [])
     = Some Samples.cueA
  /\ covers 0%float Samples.cueA = true
  /\ covers 5%float Samples.cueA = true.
Proof.
  cbv zeta. split; [apply findCurrentCue_consulted|].
  split; [apply scanCues_first|].
  split; [reflexivity|].
  repeat split; vm_compute; reflexivity.
Qed.

(* ================================================================== *)
(** * The subtitle element *)

Lemma jsstring_eqb_refl (s : jsstring) : JsString.eqb s s = true.
Proof. induction s as [|c s IH]; cbn; [reflexivity|]. now rewrite N.eqb_refl. Qed.

Lemma classListRemove_absent (tok : jsstring) (cl : list jsstring) :
  ~ In tok (classListRemove tok cl).
Proof.
  unfold classListRemove. intros Hin. apply filter_In in Hin as [_ Hne].
  now rewrite jsstring_eqb_refl in Hne.
Qed.

Lemma scanCues_none (t : number) (cs : list Cue) :
  Forall (fun c => covers t c = false) cs -> scanCues t cs = None.
Proof.
  induction 1 as [|c cs Hc _ IH]; cbn [scanCues]; [reflexivity|]. now rewrite Hc.
Qed.

(** C4.  [updateSubtitleByTime] is the time-update operation.  When no cue
    of the consulted track covers the current time, it writes the ellipsis and
    removes the [active] class if [currentTime > 0] and the player is not
    paused, and otherwise returns the object as it was.  At time 4 while
    playing, between the cues of [1,3] and [5,8], the ellipsis is shown; at
    time 0 while paused nothing is written; the [timeupdate] listener does
    the same on both. *)
Theorem updateSubtitleByTime_no_cue (this : AudioPlayer) :
  Forall (fun c => covers (currentTime (player this)) c = false)
         (Spec.consultedCues this) ->
  (if gtb (currentTime (player this)) 0%float && negb (paused (player this))
   then
     updateSubtitleByTime this
     = withDisplay this
         (mkDisplay ellipsis (classListRemove active (classList (subtitleDisplay this))))
     /\ textContent (subtitleDisplay (updateSubtitleByTime this)) = lit "..."
     /\ ~ In active (classList (subtitleDisplay (updateSubtitleByTime this)))
   else updateSubtitleByTime this = this)
  /\ subtitleDisplay
       (updateSubtitleByTime (Samples.nativeAt 4%float false Samples.gapTrack []))
     = mkDisplay (lit "...") [lit "subtitle"]
  /\ updateSubtitleByTime (Samples.nativeAt 0%float true Samples.gapTrack [])
     = Samples.nativeAt 0%float true Samples.gapTrack []
  /\ timeupdateListener (Samples.nativeAt 4%float false Samples.gapTrack [])
     = updateSubtitleByTime (Samples.nativeAt 4%float false Samples.gapTrack [])
  /\ timeupdateListener (Samples.nativeAt 0%float true Samples.gapTrack [])
     = Samples.nativeAt 0%float true Samples.gapTrack [].
Proof.
  intros Hnone. split; [|repeat split; vm_compute; reflexivity].
  unfold updateSubtitleByTime.
  rewrite findCurrentCue_consulted, (scanCues_none _ _ Hnone).
  destruct (gtb (currentTime (player this)) 0%float && negb (paused (player this)));
    [|reflexivity].
  repeat split. apply classListRemove_absent.
Qed.

Lemma updateSubtitleByTime_no_cue_witness :
  Forall (fun c => covers 4%float c = false) Samples.gapTrack
  /\ updateSubtitleByTime (Samples.nativeAt 4%float false Samples.gapTrack [])
     = withDisplay (Samples.nativeAt 4%float false Samples.gapTrack [])
         (mkDisplay ellipsis [lit "subtitle"]).
Proof.
  assert (H : Forall (fun c => covers 4%float c = false) Samples.gapTrack)
    by (repeat constructor).
  split; [exact H|].
  exact (proj1 (proj1 (updateSubtitleByTime_no_cue
                         (Samples.nativeAt 4%float false Samples.gapTrack []) H))).
Defined.

(** C9.  When the native text track exposes at least one cue, the lookup
    scans the native list only: the cue found, and with it the whole update,
    is the same whatever the manually parsed list holds, also when no native
    cue covers the time and a manual one does. *)
Theorem native_cues_shadow_manual
  (this : AudioPlayer) (tr : TextTrack) (c : Cue) (cs : list Cue) :
  track this = Some tr ->
  cues tr = Some (c :: cs) ->
  findCurrentCue this = scanCues (currentTime (player this)) (c :: cs)
  /\ (forall manual,
         findCurrentCue (withManualCues this manual) = findCurrentCue this
         /\ updateSubtitleByTime (withManualCues this manual)
            = withManualCues (updateSubtitleByTime this) manual)
  /\ scanCues 4%float [Samples.cueA] = Some Samples.cueA
  /\ findCurrentCue
       (Samples.nativeAt 4%float false [mkCue 5%float 8%float (lit "two")] [Samples.cueA])
     = None.
Proof.
  intros Htr Hcues.
  assert (Hnative : forall manual,
             nativeCues (withManualCues this manual) = Some (c :: cs)).
  { intros manual. unfold nativeCues. cbn [withManualCues track].
    now rewrite Htr, Hcues. }
  assert (Hthis : nativeCues this = Some (c :: cs)).
  { unfold nativeCues. now rewrite Htr, Hcues. }
  assert (Hfind : forall manual,
             findCurrentCue (withManualCues this manual) = findCurrentCue this).
  { intros manual. unfold findCurrentCue. now rewrite Hnative, Hthis. }
  split; [unfold findCurrentCue; now rewrite Hthis|].
  split; [|split; vm_compute; reflexivity].
  intros manual. split; [apply Hfind|].
  unfold updateSubtitleByTime. rewrite Hfind.
  cbn [withManualCues player subtitleDisplay].
  destruct (findCurrentCue this); [reflexivity|].
  destruct (gtb (currentTime (player this)) 0%float && negb (paused (player this)));
    reflexivity.
Qed.

Lemma native_cues_shadow_manual_witness :
  findCurrentCue
    (Samples.nativeAt 4%float false [mkCue 5%float 8%float (lit "two")] [Samples.cueA])
  = scanCues 4%float [mkCue 5%float 8%float (lit "two")].
Proof.
  exact (proj1 (native_cues_shadow_manual
                  (Samples.nativeAt 4%float false
                     [mkCue 5%float 8%float (lit "two")] [Samples.cueA])
                  (mkTextTrack (Some [mkCue 5%float 8%float (lit "two")]) None)
                  (mkCue 5%float 8%float (lit "two")) []
                  eq_refl eq_refl)).
Defined.

Lemma gtb_zero_not_strictEq (t : number) :
  gtb t 0%float = true -> strictEq t 0%float = false.
Proof.
  unfold gtb, strictEq. rewrite FloatAxioms.ltb_spec, FloatAxioms.eqb_spec.
  change (Prim2SF 0%float) with (S754_zero false).
  destruct (Prim2SF t) as [s|[|]| |[|] m e]; cbn; congruence.
Qed.

(** C10.  The [pause] listener writes to the subtitle element only when
    [currentTime === 0]: it then shows the start prompt and removes the
    [active] class; at any other position, and so at every positive one, it
    returns the object as it was, text and class list included. *)
Theorem pauseListener_only_at_zero (this : AudioPlayer) :
  (if strictEq (currentTime (player this)) 0%float
   then
     pauseListener this
     = withDisplay this
         (mkDisplay (lit "Press play to start the audio guide...")
                    (classListRemove active (classList (subtitleDisplay this))))
     /\ ~ In active (classList (subtitleDisplay (pauseListener this)))
   else pauseListener this = this)
  /\ (gtb (currentTime (player this)) 0%float = true -> pauseListener this = this).
Proof.
  unfold pauseListener. split.
  - destruct (strictEq (currentTime (player this)) 0%float); [|reflexivity].
    split; [reflexivity|]. apply classListRemove_absent.
  - intros Hpos. now rewrite (gtb_zero_not_strictEq _ Hpos).
Qed.

Lemma pauseListener_only_at_zero_witness :
  gtb 12.5%float 0%float = true
  /\ pauseListener (Samples.manualAt 12.5%float true)
     = Samples.manualAt 12.5%float true.
Proof.
  split; [reflexivity|].
  exact (proj2 (pauseListener_only_at_zero
                  (Samples.manualAt 12.5%float true)) eq_refl).
Defined.

(* ================================================================== *)
(** * Loading *)

Lemma loadVTTWithXHR_runs (net : Network) (this : AudioPlayer) :
  exists this' events,
    loadVTTWithXHR net this = Ok (this', events)
    /\ Spec.count Spec.isFetchSent events = 0
    /\ Spec.count Spec.isXhrSent events = 1
    /\ Spec.secondaryResult net this this' events.
Proof.
  unfold loadVTTWithXHR, Spec.secondaryResult, Spec.secondaryBody.
  destruct (xhrOutcome net) as [status responseText|].
  - destruct ((status =? 200) || (status =? 0))%Z.
    + rewrite parseVTT_returns. cbn [bind]. eexists _, _. repeat split.
    + eexists _, _. repeat split. exists xhrStatusMessage.
      repeat split; [right; now left|now left].
  - eexists _, _. repeat split. exists xhrErrorMessage.
    repeat split; [right; now left|now right].
Qed.

Lemma fetchFailed_runs (net : Network) (this : AudioPlayer) :
  exists this' events,
    fetchFailed net this = Ok (this', events)
    /\ Spec.count Spec.isFetchSent events = 1
    /\ Spec.count Spec.isXhrSent events = 1
    /\ Spec.secondaryResult net this this' events.
Proof.
  destruct (loadVTTWithXHR_runs net this) as [this' [events [Hrun [Hf [Hx Hres]]]]].
  exists this', (FetchSent vttUrl :: events). unfold fetchFailed. rewrite Hrun.
  split; [reflexivity|]. split; [unfold Spec.count in *; cbn; now rewrite Hf|].
  split; [exact Hx|].
  unfold Spec.secondaryResult in *. destruct (Spec.secondaryBody net).
  - exact Hres.
  - destruct Hres as [Hcount [[message [Hin Hmsg]] Hcues]].
    split; [exact Hcount|]. split; [|exact Hcues].
    exists message. split; [now right|exact Hmsg].
Qed.

(** C5.  A load sends one fetch.  When the fetch fails (rejection, a status
    that is not 2xx, an unreadable body) one XHR is sent, and none otherwise.
    The XHR's body is parsed when its status is 200 or 0; when the XHR fails
    too, one failure message is written to the subtitle element, the stored
    cues are left as they were, and nothing more is requested. *)
Theorem load_fallback_chain (net : Network) (this : AudioPlayer) :
  exists this' events,
    loadVTTManually net this = Ok (this', events)
    /\ Spec.count Spec.isFetchSent events = 1
    /\ Spec.count Spec.isXhrSent events = (if Spec.primaryFails net then 1 else 0)
    /\ (if Spec.primaryFails net
        then Spec.secondaryResult net this this' events
        else
          Spec.count Spec.isPublished events = 0
          /\ exists status body,
               fetchOutcome net = FetchResponse status (Some body)
               /\ Spec.parsedInto this this' body)
    /\ (Spec.secondaryBody net = None -> Spec.primaryFails net = true ->
        Spec.count Spec.isPublished events = 1
        /\ events = [FetchSent vttUrl; XhrSent vttUrl;
                     Published (textContent (subtitleDisplay this'))]).
Proof.
  unfold loadVTTManually, Spec.primaryFails.
  destruct (fetchFailed_runs net this) as [thisX [eventsX [HX HXrest]]].
  assert (Hterminal : Spec.secondaryBody net = None ->
            Spec.count Spec.isPublished eventsX = 1
            /\ eventsX = [FetchSent vttUrl; XhrSent vttUrl;
                          Published (textContent (subtitleDisplay thisX))]).
  { revert HX. unfold fetchFailed, loadVTTWithXHR, Spec.secondaryBody.
    destruct (xhrOutcome net) as [status responseText|].
    - destruct ((status =? 200) || (status =? 0))%Z; [discriminate 2|].
      cbn [bind]. intros [= <- <-] _. split; reflexivity.
    - cbn [bind]. intros [= <- <-] _. split; reflexivity. }
  destruct (fetchOutcome net) as [|status [body|]].
  - exists thisX, eventsX. split; [exact HX|]. repeat split; try apply HXrest.
    all: now apply Hterminal.
  - destruct (responseOk status); cbn [negb].
    + rewrite parseVTT_returns. eexists _, _. split; [reflexivity|].
      repeat split; try discriminate. exists status, body. now split.
    + exists thisX, eventsX. split; [exact HX|]. repeat split; try apply HXrest.
      all: now apply Hterminal.
  - exists thisX, eventsX. split; [exact HX|]. repeat split; try apply HXrest.
    all: now apply Hterminal.
Qed.

Lemma load_fallback_chain_witness :
  exists this',
    loadVTTManually (mkNetwork FetchRejected XhrError) Samples.fresh
    = Ok (this', [FetchSent vttUrl; XhrSent vttUrl; Published xhrErrorMessage]).
Proof.
  destruct (load_fallback_chain (mkNetwork FetchRejected XhrError) Samples.fresh)
    as [this' [events [Hrun [_ [_ [_ Hterminal]]]]]].
  destruct (Hterminal eq_refl eq_refl) as [_ Hevents].
  exists this'. rewrite Hrun, Hevents. cbn in Hrun. injection Hrun as <- _.
  reflexivity.
Defined.

(* ================================================================== *)
(** * What the parser stores *)

Lemma skipn_length_app {A : Type} (l l' : list A) :
  skipn (List.length l) (l ++ l') = l'.
Proof. induction l as [|x l IH]; [reflexivity|exact IH]. Qed.

Lemma firstn_length_app {A : Type} (l l' : list A) :
  firstn (List.length l) (l ++ l') = l.
Proof. induction l as [|x l IH]; [reflexivity|]. cbn. now rewrite IH. Qed.

Lemma appended_parse (vttText : jsstring) (this this' : AudioPlayer) :
  parseVTT vttText this = Ok this' ->
  Spec.appended this this' = Spec.parse vttText.
Proof.
  rewrite parseVTT_returns. intros [= <-].
  unfold Spec.appended. cbn [withManualCues manualCues]. apply skipn_length_app.
Qed.

Lemma skipToTiming_incl (ls : list jsstring) (l : jsstring) :
  In l (Spec.skipToTiming ls) -> In l ls.
Proof.
  induction ls as [|x ls IH]; cbn [Spec.skipToTiming]; [trivial|].
  destruct (Spec.isTimingLine x); [trivial|]. intros H. right. now apply IH.
Qed.

(** Every cue read comes from a timing line and keeps the two values its
    fields parse to. *)
Lemma cuesOf_origin (ls : list jsstring) (cur : option Spec.OpenCue) (c : Cue) :
  In c (Spec.cuesOf cur ls) ->
  (exists o, cur = Some o
             /\ startTime c = Spec.openStart o /\ endTime c = Spec.openEnd o)
  \/ (exists l, In l ls /\ Spec.isTimingLine l = true
                /\ startTime c = Spec.stamp (Spec.field 0 l)
                /\ endTime c = Spec.stamp (Spec.field 1 l)).
Proof.
  revert cur; induction ls as [|l ls IH]; intros cur Hin; cbn [Spec.cuesOf] in Hin.
  - destruct cur as [o|]; [|contradiction].
    destruct Hin as [<-|[]]. left. exists o. now repeat split.
  - assert (Hright : forall cur',
               In c (Spec.cuesOf cur' ls) ->
               (forall o', cur' = Some o' ->
                  startTime c = Spec.openStart o' -> endTime c = Spec.openEnd o' ->
                  (exists o, cur = Some o /\ startTime c = Spec.openStart o
                             /\ endTime c = Spec.openEnd o)
                  \/ (Spec.isTimingLine l = true
                      /\ startTime c = Spec.stamp (Spec.field 0 l)
                      /\ endTime c = Spec.stamp (Spec.field 1 l))) ->
               (exists o, cur = Some o /\ startTime c = Spec.openStart o
                          /\ endTime c = Spec.openEnd o)
               \/ (exists l0, In l0 (l :: ls) /\ Spec.isTimingLine l0 = true
                              /\ startTime c = Spec.stamp (Spec.field 0 l0)
                              /\ endTime c = Spec.stamp (Spec.field 1 l0))).
    { intros cur' Hc Hcur'. destruct (IH cur' Hc) as [[o' [E [Hs He]]]|[l0 [Hl0 Hrest]]].
      - destruct (Hcur' o' E Hs He) as [Hl|Hl]; [now left|].
        right. exists l. split; [now left|exact Hl].
      - right. exists l0. split; [now right|exact Hrest]. }
    destruct cur as [o|].
    + destruct (Spec.isBlank l).
      * destruct Hin as [<-|Hin]; [left; exists o; now repeat split|].
        apply (Hright None Hin). discriminate.
      * apply (Hright _ Hin). intros o' [= <-] Hs He. left. exists o.
        now repeat split.
    + destruct (Spec.isTimingLine l) eqn:Ht.
      * apply (Hright _ Hin). intros o' [= <-] Hs He. right. now repeat split.
      * apply (Hright None Hin). discriminate.
Qed.

Lemma stamp_timestamp (s : jsstring) :
  Spec.Timestamp s -> Spec.nonneg (Spec.stamp s) = true.
Proof.
  intros [fields [fraction [Hwf ->]]]. unfold Spec.stamp.
  rewrite (parseTimestamp_grammar _ _ Hwf). now apply totalSeconds_nonneg.
Qed.

(** C6, the claim as stated fails: a timing line whose first field is later
    than its second gives a cue with [startTime > endTime]. *)
Lemma parseVTT_unordered_cue :
  ~ (forall vttText this this',
        parseVTT vttText this = Ok this' ->
        Forall (fun c => Spec.cueInvariant c = true) (Spec.appended this this')).
Proof.
  intros H. specialize (H (lit "5 --> 3") Samples.fresh _ eq_refl).
  vm_compute in H. inversion H as [|? ? Hc _]. discriminate Hc.
Qed.

(** C7, the claim as stated fails: cues stored before the call are still
    there after it, ahead of the ones of the new text. *)
Lemma parseVTT_keeps_old_cues :
  ~ (forall vttText this this',
        parseVTT vttText this = Ok this' ->
        manualCues this' = Spec.parse vttText).
Proof.
  intros H.
  specialize (H Samples.cueBlock (Samples.manualAt 0%float true)
                _ eq_refl).
  vm_compute in H. discriminate H.
Qed.

(** C7, amended.  [parseVTT] pushes onto the stored array: after the call
    the track is the track as it was before, no cue of it changed or removed,
    followed by exactly the cues encoded in the text; nothing else of the
    object changes.  The track holds exactly the cues of the text when it was
    empty before the call, as it is on the one load that [init] starts. *)
Theorem parseVTT_appends (vttText : jsstring) (this : AudioPlayer) :
  exists this',
    parseVTT vttText this = Ok this'
    /\ manualCues this' = manualCues this ++ Spec.parse vttText
    /\ firstn (List.length (manualCues this)) (manualCues this') = manualCues this
    /\ Spec.appended this this' = Spec.parse vttText
    /\ player this' = player this
    /\ subtitleDisplay this' = subtitleDisplay this
    /\ track this' = track this
    /\ (manualCues this = [] -> manualCues this' = Spec.parse vttText).
Proof.
  exists (withManualCues this (manualCues this ++ Spec.parse vttText)).
  split; [apply parseVTT_returns|]. cbn [withManualCues manualCues player
    subtitleDisplay track]. unfold Spec.appended. cbn [withManualCues manualCues].
  repeat split.
  - apply firstn_length_app.
  - apply skipn_length_app.
  - intros ->. reflexivity.
Qed.

Lemma parseVTT_appends_witness :
  exists this',
    parseVTT Samples.cueBlock Samples.fresh = Ok this'
    /\ manualCues this' = Spec.parse Samples.cueBlock.
Proof.
  destruct (parseVTT_appends Samples.cueBlock Samples.fresh)
    as [this' [Hrun [_ [_ [_ [_ [_ [_ Hempty]]]]]]]].
  exists this'. split; [exact Hrun|]. apply Hempty. reflexivity.
Defined.

(* ================================================================== *)
(** * Fields outside the grammar *)

Lemma timestampText_fields (fields : list jsstring) (fraction : option jsstring) :
  Spec.wellFormed fields fraction ->
  List.length (split (lit ":") (Spec.timestampText fields fraction))
  = List.length fields.
Proof.
  intros [Hlen [Hfields Hfrac]]. unfold Spec.timestampText.
  destruct fields as [|f1 [|f2 [|f3 [|f4 r]]]]; cbn [List.length] in Hlen; try lia;
    repeat match goal with
           | H : Forall _ (_ :: _) |- _ => inversion H; clear H; subst
           end;
    cbn [join]; rewrite <- ?app_assoc;
    repeat (rewrite split_colon_piece by assumption);
    rewrite split_colon_lastField by assumption; reflexivity.
Qed.

Lemma nth_error_last {A : Type} (l : list A) (d : A) :
  l <> [] -> nth_error l (List.length l - 1) = Some (last l d).
Proof.
  induction l as [|x l IH]; intros Hne; [congruence|].
  destruct l as [|y l]; [reflexivity|].
  replace (List.length (x :: y :: l) - 1) with (S (List.length (y :: l) - 1))
    by (cbn [List.length]; lia).
  cbn [nth_error]. rewrite IH by discriminate. reflexivity.
Qed.

Lemma toStr_first (pieces : list jsstring) :
  pieces <> [] -> toStr (nth_error pieces 0) = nth 0 pieces [].
Proof. destruct pieces; [congruence|reflexivity]. Qed.

(** Without a numeric prefix in the whole-seconds piece the result is NaN. *)
Lemma stamp_nan (s : jsstring) :
  parseFloat (Spec.wholePart s) = nan -> Spec.stamp s = nan.
Proof.
  intros Hnan. unfold Spec.stamp. rewrite parseTimestamp_eq. cbv zeta.
  rewrite (nth_error_last (split (lit ":") s) [])
    by (apply split_nonempty; discriminate).
  cbn [receiver bind].
  rewrite (toStr_first (split (lit ".") (last (split (lit ":") s) [])))
    by (apply split_nonempty; discriminate).
  fold (Spec.wholePart s). rewrite Hnan.
  destruct (List.length (split (lit ":") s) =? 3);
    [|destruct (List.length (split (lit ":") s) =? 2)];
    rewrite ?add_nan_r;
    destruct (1 <? List.length (split (lit ".") (last (split (lit ":") s) [])));
    rewrite ?add_nan_l; reflexivity.
Qed.

Lemma covers_nan (t : number) (c : Cue) :
  startTime c = nan \/ endTime c = nan -> covers t c = false.
Proof.
  unfold covers, geb. intros [H|H]; rewrite H.
  - fold (leb nan t). now rewrite leb_nan_l.
  - rewrite leb_nan_r. apply andb_false_r.
Qed.

Lemma single_timing_line (l : jsstring) :
  ~ In 10%N l -> Spec.isTimingLine l = true ->
  Spec.parse l
  = [mkCue (Spec.stamp (Spec.field 0 l)) (Spec.stamp (Spec.field 1 l)) []].
Proof.
  intros Hnl Ht. unfold Spec.parse, newline.
  rewrite (split_last 10 [] l Hnl). cbn [Spec.skipToTiming Spec.cuesOf].
  rewrite Ht. cbn [Spec.cuesOf]. now rewrite Ht.
Qed.

(** C8, the claim as stated fails: a field with four colon-delimited pieces
    is no timestamp of the grammar, and it parses to 4, which is neither a
    zero nor NaN. *)
Lemma parseTimestamp_malformed_nonzero :
  ~ (forall s,
        ~ Spec.Timestamp s ->
        parseTimestamp s = Ok 0%float
        \/ parseTimestamp s = Ok (-0)%float
        \/ parseTimestamp s = Ok nan).
Proof.
  intros H. specialize (H (lit "1:2:3:4")).
  assert (Hmal : ~ Spec.Timestamp (lit "1:2:3:4")).
  { intros [fields [fraction [Hwf E]]].
    pose proof (timestampText_fields _ _ Hwf) as Hcount.
    rewrite <- E in Hcount. destruct Hwf as [Hlen _].
    change (List.length (split (lit ":") (lit "1:2:3:4"))) with 4 in Hcount. lia. }
  assert (Hval : parseTimestamp (lit "1:2:3:4") = Ok 4%float)
    by (vm_compute; reflexivity).
  rewrite Hval in H.
  assert (Hne : forall x, (4 =? x)%float = false -> Ok 4%float <> Ok x).
  { intros x Hx [= E]. rewrite <- E in Hx. discriminate Hx. }
  destruct (H Hmal) as [E|[E|E]]; revert E; apply Hne; reflexivity.
Qed.


(* ================================================================== *)
(** * The class list under the listeners *)

Lemma jsstring_eqb_eq (s t : jsstring) : JsString.eqb s t = true <-> s = t.
Proof.
  split; [|intros ->; apply jsstring_eqb_refl].
  revert t; induction s as [|c s IH]; intros [|d t] H; try discriminate H.
  - reflexivity.
  - cbn in H. apply andb_prop in H as [Hc Hs].
    apply N.eqb_eq in Hc. subst. f_equal. now apply IH.
Qed.

Lemma existsb_eqb_In (tok : jsstring) (cl : list jsstring) :
  existsb (JsString.eqb tok) cl = true <-> In tok cl.
Proof.
  rewrite existsb_exists. split.
  - intros [x [Hin Heq]]. apply jsstring_eqb_eq in Heq. now subst.
  - intros Hin. exists tok. split; [exact Hin|apply jsstring_eqb_refl].
Qed.

Lemma classListAdd_In (tok x : jsstring) (cl : list jsstring) :
  In x (classListAdd tok cl) <-> x = tok \/ In x cl.
Proof.
  unfold classListAdd. destruct (existsb (JsString.eqb tok) cl) eqn:E.
  - apply existsb_eqb_In in E. split; [now right|]. intros [->|H]; assumption.
  - rewrite in_app_iff. cbn. split.
    + intros [H|[H|[]]]; [now right|now left].
    + intros [->|H]; [right; now left|now left].
Qed.

Lemma classListRemove_In (tok x : jsstring) (cl : list jsstring) :
  In x (classListRemove tok cl) <-> x <> tok /\ In x cl.
Proof.
  unfold classListRemove. rewrite filter_In. split.
  - intros [Hin Hne]. split; [|exact Hin]. intros ->.
    now rewrite jsstring_eqb_refl in Hne.
  - intros [Hne Hin]. split; [exact Hin|].
    destruct (JsString.eqb tok x) eqn:E; [|reflexivity].
    apply jsstring_eqb_eq in E. congruence.
Qed.

Lemma classListAdd_idempotent (tok : jsstring) (cl : list jsstring) :
  classListAdd tok (classListAdd tok cl) = classListAdd tok cl.
Proof.
  assert (H : existsb (JsString.eqb tok) (classListAdd tok cl) = true).
  { apply existsb_eqb_In, classListAdd_In. now left. }
  unfold classListAdd at 1. now rewrite H.
Qed.

Lemma classListRemove_idempotent (tok : jsstring) (cl : list jsstring) :
  classListRemove tok (classListRemove tok cl) = classListRemove tok cl.
Proof.
  unfold classListRemove. induction cl as [|x cl IH]; [reflexivity|].
  cbn [filter]. destruct (negb (JsString.eqb tok x)) eqn:E; [|exact IH].
  cbn [filter]. now rewrite E, IH.
Qed.

Lemma classListAdd_NoDup (tok : jsstring) (cl : list jsstring) :
  NoDup cl -> NoDup (classListAdd tok cl).
Proof.
  intros Hnd. unfold classListAdd.
  destruct (existsb (JsString.eqb tok) cl) eqn:E; [exact Hnd|].
  assert (Hnot : ~ In tok cl).
  { intros Hin. apply existsb_eqb_In in Hin. congruence. }
  apply NoDup_app; [exact Hnd|repeat constructor; intros []|].
  intros x Hx [<-|[]]. now apply Hnot.
Qed.

Lemma classListRemove_NoDup (tok : jsstring) (cl : list jsstring) :
  NoDup cl -> NoDup (classListRemove tok cl).
Proof. apply NoDup_filter. Qed.

Lemma sameButActive_refl (this : AudioPlayer) : sameButActive this this.
Proof. repeat split; trivial. Qed.

Lemma sameButActive_add (this : AudioPlayer) (shown : jsstring) :
  sameButActive this
    (withDisplay this
       (mkDisplay shown (classListAdd active (classList (subtitleDisplay this))))).
Proof.
  unfold sameButActive. cbn [withDisplay subtitleDisplay classList player track manualCues].
  split; [reflexivity|]. split; [reflexivity|]. split; [reflexivity|]. split.
  - intros tok Htok. rewrite classListAdd_In. split.
    + intros [->|Hin]; [congruence|exact Hin].
    + intros Hin. now right.
  - apply classListAdd_NoDup.
Qed.

Lemma sameButActive_remove (this : AudioPlayer) (shown : jsstring) :
  sameButActive this
    (withDisplay this
       (mkDisplay shown (classListRemove active (classList (subtitleDisplay this))))).
Proof.
  unfold sameButActive. cbn [withDisplay subtitleDisplay classList player track manualCues].
  split; [reflexivity|]. split; [reflexivity|]. split; [reflexivity|]. split.
  - intros tok Htok. rewrite classListRemove_In. split.
    + now intros [_ Hin].
    + intros Hin. now split.
  - apply classListRemove_NoDup.
Qed.

Lemma sameButActive_publish (this : AudioPlayer) (message : jsstring) :
  sameButActive this (publish message this).
Proof. repeat split; trivial. Qed.

Lemma updateSubtitleByTime_frame (this : AudioPlayer) :
  sameButActive this (updateSubtitleByTime this).
Proof.
  unfold updateSubtitleByTime. destruct (findCurrentCue this).
  - apply sameButActive_add.
  - destruct (gtb _ _ && _); [apply sameButActive_remove|apply sameButActive_refl].
Qed.

(** X1.  No listener changes the player, the track or the parsed cues; of
    the subtitle element's classes only [active] is ever added or removed,
    and a class list without repetitions stays so. *)
Theorem listeners_frame (l : Listener) (this this' : AudioPlayer) :
  run l this = Ok this' -> sameButActive this this'.
Proof.
  destruct l; cbn [run].
  - intros [= <-]. unfold timeupdateListener.
    destruct (nativeCues this);
      [apply updateSubtitleByTime_frame|apply sameButActive_refl].
  - intros [= <-]. unfold updateSubtitle.
    destruct (track this) as [t|]; [|apply sameButActive_refl].
    destruct (activeCues t) as [[|cue rest]|];
      try apply sameButActive_add;
      (destruct (gtb _ _ && _);
       [apply sameButActive_remove|apply sameButActive_refl]).
  - intros [= <-]. apply sameButActive_remove.
  - intros [= <-]. unfold pauseListener.
    destruct (strictEq _ _); [apply sameButActive_remove|apply sameButActive_refl].
  - unfold playListener. destruct (_ <? _)%float.
    + destruct (track this) as [t|]; [|discriminate].
      cbn [receiver bind]. destruct (activeCues t) as [cs|]; [|discriminate].
      cbn [receiver bind]. destruct (List.length cs =? 0); intros [= <-];
        [apply sameButActive_publish|apply sameButActive_refl].
    + intros [= <-]. apply sameButActive_refl.
  - intros [= <-]. apply sameButActive_publish.
Qed.

Lemma listeners_frame_witness :
  sameButActive (Samples.nativeAt 4%float false Samples.gapTrack [])
    (timeupdateListener (Samples.nativeAt 4%float false Samples.gapTrack [])).
Proof.
  exact (listeners_frame Timeupdate
           (Samples.nativeAt 4%float false Samples.gapTrack []) _ eq_refl).
Defined.

Lemma findCurrentCue_withDisplay (this : AudioPlayer) (d : Display) :
  findCurrentCue (withDisplay this d) = findCurrentCue this.
Proof. reflexivity. Qed.

(** X2.  The time-based update is idempotent: run again at the same
    position it changes nothing more, whichever branch it takes. *)
Theorem updateSubtitleByTime_idempotent (this : AudioPlayer) :
  updateSubtitleByTime (updateSubtitleByTime this) = updateSubtitleByTime this
  /\ timeupdateListener (timeupdateListener this) = timeupdateListener this.
Proof.
  assert (H : updateSubtitleByTime (updateSubtitleByTime this)
              = updateSubtitleByTime this).
  { unfold updateSubtitleByTime at 2.
    destruct (findCurrentCue this) as [c|] eqn:Hc.
    - unfold updateSubtitleByTime. rewrite findCurrentCue_withDisplay, Hc.
      cbn [withDisplay subtitleDisplay classList player track manualCues].
      now rewrite classListAdd_idempotent.
    - destruct (gtb (currentTime (player this)) 0%float
                && negb (paused (player this))) eqn:Hp.
      + unfold updateSubtitleByTime. rewrite findCurrentCue_withDisplay, Hc.
        cbn [withDisplay subtitleDisplay classList player track manualCues].
        now rewrite Hp, classListRemove_idempotent.
      + unfold updateSubtitleByTime. now rewrite Hc, Hp. }
  split; [exact H|].
  unfold timeupdateListener. destruct (nativeCues this) as [cs|] eqn:Hn.
  - assert (Hn' : nativeCues (updateSubtitleByTime this) = Some cs).
    { destruct (updateSubtitleByTime_frame this) as [_ [Ht _]].
      unfold nativeCues in *. now rewrite Ht. }
    rewrite Hn'. exact H.
  - now rewrite Hn.
Qed.

(** X3.  The [timeupdate] listener never consults the manually parsed cues:
    what it does commutes with any replacement of [manualCues], and without
    native cues it leaves the object as it is, even if a parsed cue covers
    the current time. *)
Theorem timeupdateListener_ignores_manualCues (this : AudioPlayer) :
  (forall manual,
      timeupdateListener (withManualCues this manual)
      = withManualCues (timeupdateListener this) manual)
  /\ (nativeCues this = None -> timeupdateListener this = this).
Proof.
  split.
  - intros manual. unfold timeupdateListener.
    change (nativeCues (withManualCues this manual)) with (nativeCues this).
    destruct (nativeCues this) as [cs|] eqn:Hn; [|reflexivity].
    unfold updateSubtitleByTime, findCurrentCue.
    change (nativeCues (withManualCues this manual)) with (nativeCues this).
    rewrite Hn. cbn [withManualCues player subtitleDisplay].
    destruct (scanCues (currentTime (player this)) cs); [reflexivity|].
    destruct (gtb _ _ && _); reflexivity.
  - intros Hn. unfold timeupdateListener. now rewrite Hn.
Qed.

Lemma timeupdateListener_ignores_manualCues_witness :
  scanCues 2%float Samples.gapTrack <> None
  /\ timeupdateListener (Samples.manualAt 2%float false)
     = Samples.manualAt 2%float false.
Proof.
  split; [discriminate|].
  exact (proj2 (timeupdateListener_ignores_manualCues
                  (Samples.manualAt 2%float false)) eq_refl).
Defined.

(* ================================================================== *)
(** * The two update paths and the play listener *)

Lemma scanCues_filter (t : number) (cs : list Cue) :
  scanCues t cs = hd_error (filter (covers t) cs).
Proof.
  induction cs as [|c cs IH]; [reflexivity|].
  cbn [scanCues filter]. now destruct (covers t c).
Qed.

Lemma scanCues_found (t : number) (before after : list Cue) (c : Cue) :
  Forall (fun x => covers t x = false) before ->
  covers t c = true ->
  scanCues t (before ++ c :: after) = Some c.
Proof.
  induction 1 as [|x before Hx _ IH]; intros Hc; cbn [app scanCues].
  - now rewrite Hc.
  - rewrite Hx. now apply IH.
Qed.

(** X4.  When a cue of the consulted track covers the current time, the
    update shows the text of the first such cue in stored order and the
    subtitle element carries the [active] class afterwards, whether the
    player is paused or not. *)
Theorem updateSubtitleByTime_shows_first
  (this : AudioPlayer) (before after : list Cue) (c : Cue) :
  Spec.consultedCues this = before ++ c :: after ->
  Forall (fun x => covers (currentTime (player this)) x = false) before ->
  covers (currentTime (player this)) c = true ->
  updateSubtitleByTime this
  = withDisplay this
      (mkDisplay (text c) (classListAdd active (classList (subtitleDisplay this))))
  /\ textContent (subtitleDisplay (updateSubtitleByTime this)) = text c
  /\ In active (classList (subtitleDisplay (updateSubtitleByTime this))).
Proof.
  intros Htrack Hbefore Hc.
  assert (E : updateSubtitleByTime this
              = withDisplay this
                  (mkDisplay (text c)
                     (classListAdd active (classList (subtitleDisplay this))))).
  { unfold updateSubtitleByTime.
    now rewrite findCurrentCue_consulted, Htrack, (scanCues_found _ _ _ _ Hbefore Hc). }
  rewrite E. cbn [withDisplay subtitleDisplay textContent classList].
  split; [reflexivity|]. split; [reflexivity|].
  apply classListAdd_In. now left.
Qed.

Lemma updateSubtitleByTime_shows_first_witness :
  textContent
    (subtitleDisplay
       (updateSubtitleByTime
          (Samples.nativeAt 6%float true Samples.gapTrack [Samples.cueB])))
  = lit "two".
Proof.
  refine (proj1 (proj2
            (updateSubtitleByTime_shows_first
               (Samples.nativeAt 6%float true Samples.gapTrack [Samples.cueB])
               [mkCue 1%float 3%float (lit "one")] []
               (mkCue 5%float 8%float (lit "two")) _ _ _)));
    [reflexivity|repeat constructor|reflexivity].
Defined.

(** X5.  The [cuechange] path and the time-based path agree: when the
    track's active cues are the cues of its list that cover the current
    time, in list order, [updateSubtitle] and [updateSubtitleByTime] leave
    the same object. *)
Theorem updateSubtitle_agrees
  (this : AudioPlayer) (tr : TextTrack) (c : Cue) (cs : list Cue) :
  track this = Some tr ->
  cues tr = Some (c :: cs) ->
  activeCues tr = Some (filter (covers (currentTime (player this))) (c :: cs)) ->
  updateSubtitle this = updateSubtitleByTime this.
Proof.
  intros Htr Hcues Hactive.
  unfold updateSubtitle, updateSubtitleByTime, findCurrentCue, nativeCues.
  rewrite Htr, Hcues, Hactive. cbn [List.length Nat.ltb Nat.leb].
  rewrite scanCues_filter.
  now destruct (filter (covers (currentTime (player this))) (c :: cs)).
Qed.

Lemma updateSubtitle_agrees_witness :
  updateSubtitle
    (mkAudioPlayer (mkPlayer 6%float false) Samples.showing
       (Some (mkTextTrack (Some Samples.gapTrack)
                (Some [mkCue 5%float 8%float (lit "two")]))) [])
  = updateSubtitleByTime
      (mkAudioPlayer (mkPlayer 6%float false) Samples.showing
         (Some (mkTextTrack (Some Samples.gapTrack)
                  (Some [mkCue 5%float 8%float (lit "two")]))) []).
Proof.
  exact (updateSubtitle_agrees
           (mkAudioPlayer (mkPlayer 6%float false) Samples.showing
              (Some (mkTextTrack (Some Samples.gapTrack)
                       (Some [mkCue 5%float 8%float (lit "two")]))) [])
           _ _ _ eq_refl eq_refl eq_refl).
Defined.

(** X6.  The [play] listener raises a TypeError exactly when playback
    starts before second 1 and the track is still [null] or has no active
    cue list; from second 1 on it never reads the track and returns the
    object as it is.  When it returns, it has written the loading message
    exactly if the position is before second 1 and no cue is active, and it
    never touches the class list. *)
Theorem playListener_outcomes (this : AudioPlayer) :
  let early := (currentTime (player this) <? 1)%float in
  let active_list :=
    match track this with
    | Some t => activeCues t
    | None => None
    end in
  (playListener this = TypeError <-> early = true /\ active_list = None)
  /\ playListener this <> OutOfFuel
  /\ (forall this',
         playListener this = Ok this' ->
         this' = (if early && match active_list with
                              | Some [] => true
                              | _ => false
                              end
                  then publish loadingMessage this else this)
         /\ classList (subtitleDisplay this') = classList (subtitleDisplay this)).
Proof.
  cbv zeta. unfold playListener.
  destruct (currentTime (player this) <? 1)%float.
  - destruct (track this) as [t|]; cbn [receiver bind].
    + destruct (activeCues t) as [[|c cs]|]; cbn [receiver bind List.length Nat.eqb].
      * split; [split; [discriminate|intros [_ H]; discriminate H]|].
        split; [discriminate|]. intros this' [= <-]. now split.
      * split; [split; [discriminate|intros [_ H]; discriminate H]|].
        split; [discriminate|]. intros this' [= <-]. now split.
      * split; [split; [now split|reflexivity]|].
        split; [discriminate|]. discriminate.
    + split; [split; [now split|reflexivity]|].
      split; [discriminate|]. discriminate.
  - split; [split; [discriminate|intros [H _]; discriminate H]|].
    split; [discriminate|]. intros this' [= <-]. now split.
Qed.

Lemma playListener_outcomes_witness :
  playListener Samples.fresh = TypeError
  /\ playListener (Samples.nativeAt 0%float false Samples.gapTrack []) = TypeError
  /\ playListener (Samples.manualAt 12.5%float false)
     = Ok (Samples.manualAt 12.5%float false).
Proof.
  split; [|split].
  - apply (proj1 (playListener_outcomes Samples.fresh)). now split.
  - apply (proj1 (playListener_outcomes
                    (Samples.nativeAt 0%float false Samples.gapTrack []))).
    now split.
  - reflexivity.
Defined.

(* ================================================================== *)
(** * Lines of a text *)

Section SingleSeparator.

Variable c : N.

Lemma splitScan_single_app (a b cur : jsstring) :
  splitScan [c] (a ++ c :: b) cur 0
  = splitScan [c] a cur 0 ++ splitScan [c] b [] 0.
Proof.
  revert cur; induction a as [|x a IH]; intros cur.
  - cbn [app splitScan isPrefix List.length Nat.sub]. now rewrite N.eqb_refl.
  - rewrite <- app_comm_cons. cbn [splitScan isPrefix List.length Nat.sub].
    destruct (N.eqb c x); cbn [andb]; rewrite IH; reflexivity.
Qed.

Lemma split_single_app (a b : jsstring) :
  split [c] (a ++ c :: b) = split [c] a ++ split [c] b.
Proof. apply splitScan_single_app. Qed.

Lemma splitScan_single_clean (s cur : jsstring) :
  ~ In c cur -> Forall (fun p => ~ In c p) (splitScan [c] s cur 0).
Proof.
  revert cur; induction s as [|x s IH]; intros cur Hcur.
  - constructor; [|constructor]. now rewrite <- in_rev.
  - cbn [splitScan isPrefix List.length Nat.sub].
    destruct (N.eqb_spec c x) as [<-|Hx]; cbn [andb].
    + constructor; [now rewrite <- in_rev|]. apply IH. intros [].
    + apply IH. intros [E|Hin]; [congruence|contradiction].
Qed.

Lemma split_single_clean (s : jsstring) :
  Forall (fun p => ~ In c p) (split [c] s).
Proof. apply splitScan_single_clean. intros []. Qed.

Variable sub : jsstring.
Hypothesis sub_clean : ~ In c sub.

Lemma isPrefix_app_sep (a b : jsstring) :
  isPrefix sub (a ++ c :: b) = isPrefix sub a.
Proof.
  clear - sub_clean. revert a; induction sub as [|y sub' IH]; intros a;
    [reflexivity|].
  assert (Hy : N.eqb y c = false).
  { apply N.eqb_neq. intros ->. apply sub_clean. now left. }
  destruct a as [|d a]; cbn [app isPrefix].
  - now rewrite Hy.
  - rewrite IH; [reflexivity|]. intros Hin. apply sub_clean. now right.
Qed.

Lemma includes_app_sep (a b : jsstring) :
  includes sub (a ++ c :: b) = includes sub a || includes sub b.
Proof.
  induction a as [|x a IH].
  - pose proof (isPrefix_app_sep [] b) as E. cbn [app] in E |- *.
    cbn [includes]. rewrite E. now destruct (isPrefix sub []).
  - rewrite <- app_comm_cons. cbn [includes].
    rewrite IH, app_comm_cons, (isPrefix_app_sep (x :: a) b).
    now rewrite orb_assoc.
Qed.

Lemma existsb_includes_splitScan (s cur : jsstring) :
  existsb (includes sub) (splitScan [c] s cur 0) = includes sub (rev cur ++ s).
Proof.
  revert cur; induction s as [|x s IH]; intros cur.
  - cbn [splitScan existsb]. now rewrite orb_false_r, app_nil_r.
  - cbn [splitScan isPrefix List.length Nat.sub].
    destruct (N.eqb_spec c x) as [<-|Hx]; cbn [andb].
    + cbn [existsb]. rewrite IH, includes_app_sep. reflexivity.
    + rewrite IH. cbn [rev]. now rewrite <- app_assoc.
Qed.

Lemma existsb_includes_split (s : jsstring) :
  existsb (includes sub) (split [c] s) = includes sub s.
Proof. apply (existsb_includes_splitScan s []). Qed.

End SingleSeparator.

Lemma arrow_no_newline : ~ In 10%N arrow.
Proof.
  intros H. vm_compute in H.
  repeat (destruct H as [H|H]; [discriminate H|]). exact H.
Qed.

Lemma timing_in_lines (vttText : jsstring) :
  existsb Spec.isTimingLine (split newline vttText) = includes arrow vttText.
Proof. apply (existsb_includes_split 10 arrow arrow_no_newline). Qed.

(* ================================================================== *)
(** * The cues of a list of lines *)

Lemma cuesOf_skipToTiming (ls : list jsstring) :
  Spec.cuesOf None (Spec.skipToTiming ls) = Spec.cuesOf None ls.
Proof.
  induction ls as [|l ls IH]; [reflexivity|].
  cbn [Spec.skipToTiming Spec.cuesOf].
  destruct (Spec.isTimingLine l) eqn:Ht; [|exact IH].
  cbn [Spec.cuesOf]. now rewrite Ht.
Qed.

Lemma parse_lines (vttText : jsstring) :
  Spec.parse vttText = Spec.cuesOf None (split newline vttText).
Proof. apply cuesOf_skipToTiming. Qed.

Lemma cuesOf_no_timing (ls : list jsstring) :
  existsb Spec.isTimingLine ls = false -> Spec.cuesOf None ls = [].
Proof.
  induction ls as [|l ls IH]; [reflexivity|].
  cbn [existsb Spec.cuesOf]. intros H. apply orb_false_elim in H as [Hl Hls].
  rewrite Hl. now apply IH.
Qed.

Lemma cuesOf_open (ls : list jsstring) (o : Spec.OpenCue) :
  exists shown rest,
    Spec.cuesOf (Some o) ls
    = mkCue (Spec.openStart o) (Spec.openEnd o) shown :: rest.
Proof.
  revert o; induction ls as [|l ls IH]; intros o; cbn [Spec.cuesOf].
  - now eexists _, _.
  - destruct (Spec.isBlank l); [now eexists _, _|].
    destruct (IH (Spec.addLine o l)) as [shown [rest E]].
    exists shown, rest. exact E.
Qed.

Lemma cuesOf_some_timing (ls : list jsstring) :
  existsb Spec.isTimingLine ls = true ->
  exists c rest, Spec.cuesOf None ls = c :: rest.
Proof.
  induction ls as [|l ls IH]; [discriminate|].
  cbn [existsb Spec.cuesOf]. destruct (Spec.isTimingLine l); cbn [orb].
  - intros _. destruct (cuesOf_open ls (Spec.openCue l)) as [shown [rest E]].
    rewrite E. now eexists _, _.
  - exact IH.
Qed.

Lemma cuesOf_app_blank (first second : list jsstring) (cur : option Spec.OpenCue) :
  Spec.cuesOf cur (first ++ [] :: second)
  = Spec.cuesOf cur first ++ Spec.cuesOf None second.
Proof.
  revert cur; induction first as [|l first IH]; intros cur.
  - cbn [app Spec.cuesOf]. destruct cur; reflexivity.
  - cbn [app Spec.cuesOf]. destruct cur as [o|].
    + destruct (Spec.isBlank l); [cbn [app]; now rewrite IH|apply IH].
    + destruct (Spec.isTimingLine l); apply IH.
Qed.

Lemma cuesOf_app_header (header body : list jsstring) :
  existsb Spec.isTimingLine header = false ->
  Spec.cuesOf None (header ++ body) = Spec.cuesOf None body.
Proof.
  induction header as [|l header IH]; [reflexivity|].
  cbn [existsb app Spec.cuesOf]. intros H. apply orb_false_elim in H as [Hl Hh].
  rewrite Hl. now apply IH.
Qed.

Lemma withManualCues_same (this : AudioPlayer) :
  withManualCues this (manualCues this ++ []) = this.
Proof. destruct this. cbn. now rewrite app_nil_r. Qed.

(** X7.  [parseVTT] stores at least one new cue exactly when the text
    contains [-->] somewhere; a text without it, the empty text included,
    leaves the object as it is. *)
Theorem parseVTT_adds_iff_arrow (vttText : jsstring) (this : AudioPlayer) :
  exists this',
    parseVTT vttText this = Ok this'
    /\ (if includes arrow vttText
        then exists c rest, Spec.appended this this' = c :: rest
        else this' = this).
Proof.
  exists (withManualCues this (manualCues this ++ Spec.parse vttText)).
  split; [apply parseVTT_returns|].
  rewrite (appended_parse vttText this _ (parseVTT_returns vttText this)).
  rewrite parse_lines. destruct (includes arrow vttText) eqn:Hin;
    rewrite <- timing_in_lines in Hin.
  - now apply cuesOf_some_timing.
  - rewrite (cuesOf_no_timing _ Hin). apply withManualCues_same.
Qed.

(** X8.  Whatever precedes the first line with [-->] is ignored: a header
    without [-->], of any number of lines, put in front of a text does not
    change what [parseVTT] returns. *)
Theorem parseVTT_header_ignored (header body : jsstring) (this : AudioPlayer) :
  includes arrow header = false ->
  parseVTT (header ++ newline ++ body) this = parseVTT body this.
Proof.
  intros Hh. rewrite !parseVTT_returns, !parse_lines.
  change (header ++ newline ++ body) with (header ++ 10%N :: body).
  unfold newline. rewrite split_single_app.
  rewrite cuesOf_app_header; [reflexivity|].
  change (existsb Spec.isTimingLine (split newline header) = false).
  now rewrite timing_in_lines.
Qed.

Lemma parseVTT_header_ignored_witness :
  parseVTT (lit "WEBVTT" ++ newline ++ lit "Kind: captions" ++ newline
            ++ Samples.cueBlock) Samples.fresh
  = parseVTT Samples.cueBlock Samples.fresh.
Proof.
  rewrite (app_assoc (lit "WEBVTT") newline), app_assoc.
  apply parseVTT_header_ignored. reflexivity.
Defined.

(** X9.  Parsing two texts separated by an empty line is parsing the first
    and then the second: the cues of the first are followed by the cues of
    the second, and a cue still open at the end of the first is closed
    there. *)
Theorem parseVTT_blocks (first second : jsstring) (this : AudioPlayer) :
  parseVTT (Lines.blocks first second) this
  = (this1 <- parseVTT first this ;; parseVTT second this1)
  /\ Spec.parse (Lines.blocks first second) = Spec.parse first ++ Spec.parse second.
Proof.
  assert (H : Spec.parse (Lines.blocks first second)
              = Spec.parse first ++ Spec.parse second).
  { rewrite !parse_lines. unfold Lines.blocks, newline.
    change (first ++ [10%N] ++ [10%N] ++ second)
      with (first ++ 10%N :: ([] ++ 10%N :: second)).
    rewrite !split_single_app. change (split [10%N] []) with [@nil N].
    apply cuesOf_app_blank. }
  split; [|exact H].
  rewrite !parseVTT_returns. cbn [bind]. rewrite parseVTT_returns, H.
  cbn [withManualCues manualCues player subtitleDisplay track].
  now rewrite app_assoc.
Qed.

(* ================================================================== *)
(** * Line endings *)

Lemma dropWhile_app_kept (p : N -> bool) (s t : jsstring) :
  dropWhile p s <> [] -> dropWhile p (s ++ t) = dropWhile p s ++ t.
Proof.
  induction s as [|x s IH]; cbn [dropWhile app]; [congruence|].
  destruct (p x); [exact IH|reflexivity].
Qed.

Lemma dropWhile_app_gone (p : N -> bool) (s t : jsstring) :
  dropWhile p s = [] -> dropWhile p (s ++ t) = dropWhile p t.
Proof.
  induction s as [|x s IH]; cbn [dropWhile app]; [reflexivity|].
  destruct (p x); [exact IH|discriminate].
Qed.

Lemma trimEnd_snoc (s : jsstring) (w : N) :
  isWhiteSpace w = true -> trimEnd (s ++ [w]) = trimEnd s.
Proof.
  intros Hw. unfold trimEnd. rewrite rev_app_distr. cbn [rev app dropWhile].
  now rewrite Hw.
Qed.

Lemma trim_snoc (l : jsstring) (w : N) :
  isWhiteSpace w = true -> trim (l ++ [w]) = trim l.
Proof.
  intros Hw. unfold trim, trimStart.
  destruct (dropWhile isWhiteSpace l) as [|x r] eqn:E.
  - rewrite (dropWhile_app_gone _ _ _ E). cbn [dropWhile]. now rewrite Hw.
  - rewrite dropWhile_app_kept by (rewrite E; discriminate).
    rewrite E. now apply trimEnd_snoc.
Qed.

Lemma isTimingLine_trim (a b : jsstring) :
  trim a = trim b -> Spec.isTimingLine a = Spec.isTimingLine b.
Proof.
  intros H. unfold Spec.isTimingLine.
  now rewrite <- (includes_arrow_trim a), <- (includes_arrow_trim b), H.
Qed.

(** The cues depend on each line through its trimmed form only. *)
Lemma cuesOf_trim (ls1 ls2 : list jsstring) :
  Forall2 (fun a b => trim a = trim b) ls1 ls2 ->
  forall cur, Spec.cuesOf cur ls1 = Spec.cuesOf cur ls2.
Proof.
  induction 1 as [|a b ls1 ls2 Hab _ IH]; intros cur; [reflexivity|].
  cbn [Spec.cuesOf]. unfold Spec.isBlank, Spec.addLine, Spec.openCue, Spec.field.
  rewrite (isTimingLine_trim a b Hab), Hab.
  destruct cur as [o|].
  - destruct (isEmpty (trim b)); [now rewrite IH|apply IH].
  - destruct (Spec.isTimingLine b); apply IH.
Qed.

Lemma mapInit_addCR_trim (ls : list jsstring) :
  Forall2 (fun a b => trim a = trim b) (Lines.mapInit Lines.addCR ls) ls.
Proof.
  induction ls as [|x ls IH]; [constructor|].
  destruct ls as [|y ls]; [repeat constructor|].
  change (Lines.mapInit Lines.addCR (x :: y :: ls))
    with (Lines.addCR x :: Lines.mapInit Lines.addCR (y :: ls)).
  constructor; [|exact IH]. now apply trim_snoc.
Qed.

Lemma splitScan_crlf (s cur : jsstring) :
  splitScan [10%N] (Lines.crlf s) cur 0
  = Lines.mapInit Lines.addCR (splitScan [10%N] s cur 0).
Proof.
  revert cur; induction s as [|x s IH]; intros cur; [reflexivity|].
  cbn [Lines.crlf]. destruct (N.eqb_spec x 10) as [->|Hx].
  - cbn [splitScan isPrefix N.eqb Pos.eqb andb List.length Nat.sub].
    rewrite IH.
    destruct (splitScan [10%N] s [] 0) as [|p rest] eqn:E.
    + now apply splitScan_nonempty in E.
    + cbn [Lines.mapInit rev]. reflexivity.
  - assert (Hx' : N.eqb 10 x = false) by (apply N.eqb_neq; congruence).
    cbn [splitScan isPrefix]. rewrite Hx'. cbn [andb]. apply IH.
Qed.

(** X10.  Line endings do not matter: a text whose lines end in CR LF gives
    the same result as the text with bare LF. *)
Theorem parseVTT_crlf (vttText : jsstring) (this : AudioPlayer) :
  parseVTT (Lines.crlf vttText) this = parseVTT vttText this.
Proof.
  rewrite !parseVTT_returns, !parse_lines. unfold newline, split.
  rewrite splitScan_crlf.
  now rewrite (cuesOf_trim _ _ (mapInit_addCR_trim _)).
Qed.

(* ================================================================== *)
(** * The text of a cue *)

Lemma dropWhile_head (s : jsstring) :
  isWhiteSpace (hd 0%N (dropWhile isWhiteSpace s)) = false.
Proof.
  induction s as [|x s IH]; [reflexivity|]. cbn [dropWhile].
  destruct (isWhiteSpace x) eqn:E; [exact IH|exact E].
Qed.

Lemma dropWhile_fixed (s : jsstring) :
  isWhiteSpace (hd 0%N s) = false -> dropWhile isWhiteSpace s = s.
Proof. destruct s as [|x s]; [reflexivity|]. cbn. now intros ->. Qed.

Lemma dropWhile_app_stop (p : N -> bool) (a : jsstring) (x : N) :
  p x = false -> dropWhile p (a ++ [x]) = dropWhile p a ++ [x].
Proof.
  intros Hx. induction a as [|y a IH]; cbn [app dropWhile].
  - now rewrite Hx.
  - destruct (p y); [exact IH|reflexivity].
Qed.

Lemma trimEnd_head (s : jsstring) :
  isWhiteSpace (hd 0%N s) = false -> isWhiteSpace (hd 0%N (trimEnd s)) = false.
Proof.
  destruct s as [|x s]; [reflexivity|]. cbn [hd]. intros Hx.
  unfold trimEnd. cbn [rev]. rewrite (dropWhile_app_stop _ _ _ Hx).
  rewrite rev_app_distr. exact Hx.
Qed.

Lemma trim_trimmed (l : jsstring) : Lines.trimmed (trim l).
Proof.
  unfold Lines.trimmed, trim. split.
  - apply trimEnd_head, dropWhile_head.
  - unfold trimEnd. rewrite rev_involutive. apply dropWhile_head.
Qed.

Lemma trimmed_trim (s : jsstring) : Lines.trimmed s -> trim s = s.
Proof.
  intros [Hs He]. unfold trim, trimStart, trimEnd.
  rewrite (dropWhile_fixed s Hs), (dropWhile_fixed _ He). apply rev_involutive.
Qed.

Lemma hd_app_nonempty (a b : jsstring) : a <> [] -> hd 0%N (a ++ b) = hd 0%N a.
Proof. destruct a; [congruence|reflexivity]. Qed.

Lemma join_textLines (ls : list jsstring) :
  Forall Lines.textLine ls ->
  Lines.trimmed (join (lit " ") ls) /\ ~ In 10%N (join (lit " ") ls)
  /\ (ls <> [] -> join (lit " ") ls <> []).
Proof.
  induction 1 as [|l ls [Hne [[Hs He] Hnl]] Hls IH].
  - repeat split; [intros []|congruence].
  - destruct ls as [|l' ls].
    + cbn [join]. repeat split; trivial.
    + destruct IH as [[_ IHe] [IHnl IHne]].
      change (join (lit " ") (l :: l' :: ls))
        with (l ++ lit " " ++ join (lit " ") (l' :: ls)).
      split; [split|split].
      * now rewrite hd_app_nonempty.
      * rewrite !rev_app_distr, <- app_assoc. rewrite hd_app_nonempty; [exact IHe|].
        intros E. apply (f_equal (@rev N)) in E. rewrite rev_involutive in E.
        now apply IHne.
      * intros Hin. apply in_app_or in Hin as [Hin|Hin]; [now apply Hnl|].
        apply in_app_or in Hin as [Hin|Hin]; [|now apply IHnl].
        vm_compute in Hin. destruct Hin as [Hin|[]]. discriminate Hin.
      * intros _ E. apply app_eq_nil in E as [E _]. now apply Hne.
Qed.

Lemma In_dropWhile (p : N -> bool) (x : N) (s : jsstring) :
  In x (dropWhile p s) -> In x s.
Proof.
  induction s as [|y s IH]; cbn [dropWhile]; [trivial|].
  destruct (p y); [intros H; right; now apply IH|trivial].
Qed.

Lemma In_trim (x : N) (l : jsstring) : In x (trim l) -> In x l.
Proof.
  unfold trim, trimEnd, trimStart. rewrite <- in_rev. intros H.
  apply In_dropWhile in H. rewrite <- in_rev in H. now apply In_dropWhile in H.
Qed.

Lemma cuesOf_text (ls : list jsstring) (cur : option Spec.OpenCue) (c : Cue) :
  Forall (fun l => ~ In 10%N l) ls ->
  (forall o, cur = Some o -> Forall Lines.textLine (Spec.openLines o)) ->
  In c (Spec.cuesOf cur ls) ->
  Lines.trimmed (text c) /\ ~ In 10%N (text c).
Proof.
  intros Hls; revert cur; induction Hls as [|l ls Hl _ IH]; intros cur Hcur Hin;
    cbn [Spec.cuesOf] in Hin.
  - destruct cur as [o|]; [|contradiction]. destruct Hin as [<-|[]].
    destruct (join_textLines _ (Hcur o eq_refl)) as [Ht [Hn _]]. now split.
  - destruct cur as [o|].
    + destruct (Spec.isBlank l) eqn:Hb.
      * destruct Hin as [<-|Hin].
        -- destruct (join_textLines _ (Hcur o eq_refl)) as [Ht [Hn _]]. now split.
        -- apply (IH None); [discriminate|exact Hin].
      * apply (IH (Some (Spec.addLine o l))); [|exact Hin].
        intros o' [= <-]. cbn [Spec.addLine Spec.openLines].
        apply Forall_app. split; [exact (Hcur o eq_refl)|].
        constructor; [|constructor]. split; [|split].
        -- intros E'. unfold Spec.isBlank in Hb. rewrite E' in Hb. discriminate Hb.
        -- apply trim_trimmed.
        -- intros Hin'. apply Hl. now apply In_trim.
    + destruct (Spec.isTimingLine l).
      * apply (IH (Some (Spec.openCue l))); [|exact Hin].
        intros o' [= <-]. constructor.
      * apply (IH None); [discriminate|exact Hin].
Qed.

(** X11.  The text of every cue that [parseVTT] appends is trimmed: it
    neither starts nor ends with white space, so trimming it again changes
    nothing, and it holds no line feed. *)
Theorem parseVTT_cue_text (vttText : jsstring) (this this' : AudioPlayer) :
  parseVTT vttText this = Ok this' ->
  Forall (fun c => trim (text c) = text c /\ ~ In 10%N (text c))
         (Spec.appended this this').
Proof.
  intros Hrun. rewrite (appended_parse _ _ _ Hrun), parse_lines.
  apply Forall_forall. intros c Hc.
  destruct (cuesOf_text (split newline vttText) None c) as [Ht Hn].
  - apply (split_single_clean 10).
  - discriminate.
  - exact Hc.
  - split; [now apply trimmed_trim|exact Hn].
Qed.

Lemma parseVTT_cue_text_witness :
  Forall (fun c => trim (text c) = text c /\ ~ In 10%N (text c))
         (Spec.appended Samples.fresh
            (withManualCues Samples.fresh
               [mkCue 1%float 3%float (lit "Hello world")])).
Proof.
  apply (parseVTT_cue_text Samples.cueBlock). vm_compute. reflexivity.
Defined.

(* ================================================================== *)
(** * Fields and lines in excess *)

Lemma last_In {A : Type} (l : list A) (d : A) : l <> [] -> In (last l d) l.
Proof.
  induction l as [|x l IH]; intros Hne; [congruence|].
  destruct l as [|y l]; [now left|]. right. apply IH. discriminate.
Qed.

(** X12.  With more than three colon-delimited fields only the last one
    counts: the timestamp parses as that field alone would, whatever the
    fields before it hold. *)
Theorem parseTimestamp_extra_fields (s : jsstring) :
  3 < List.length (split (lit ":") s) ->
  parseTimestamp s = parseTimestamp (last (split (lit ":") s) []).
Proof.
  intros Hlen.
  assert (Hne : split (lit ":") s <> []) by (apply split_nonempty; discriminate).
  assert (Hclean : ~ In 58%N (last (split (lit ":") s) [])).
  { pose proof (split_single_clean 58 s) as Hall. rewrite Forall_forall in Hall.
    apply Hall. apply (last_In (split [58%N] s) [] Hne). }
  rewrite (parseTimestamp_eq s), (parseTimestamp_eq (last (split (lit ":") s) [])).
  cbv zeta.
  rewrite (nth_error_last (split (lit ":") s) [] Hne).
  change (split (lit ":") (last (split (lit ":") s) []))
    with (split [58%N] (last (split (lit ":") s) [])).
  rewrite (split_last 58 [] _ Hclean).
  cbn [List.length Nat.sub nth_error receiver bind Nat.eqb].
  assert (H3 : (List.length (split (lit ":") s) =? 3) = false)
    by (apply Nat.eqb_neq; lia).
  assert (H2 : (List.length (split (lit ":") s) =? 2) = false)
    by (apply Nat.eqb_neq; lia).
  now rewrite H3, H2.
Qed.

Lemma parseTimestamp_extra_fields_witness :
  parseTimestamp (lit "99:x:1:2:07.5") = parseTimestamp (lit "07.5").
Proof.
  apply (parseTimestamp_extra_fields (lit "99:x:1:2:07.5")). cbn. lia.
Defined.

Lemma timing_not_blank (l : jsstring) :
  Spec.isTimingLine l = true -> Spec.isBlank l = false.
Proof.
  unfold Spec.isTimingLine, Spec.isBlank. rewrite <- includes_arrow_trim.
  now destruct (trim l).
Qed.

(** X13.  A line with [-->] that directly follows a timing line opens no
    cue of its own: it is consumed, trimmed, as the text of the cue before
    it. *)
Theorem parseVTT_swallows_timing_line (l1 l2 : jsstring) (this : AudioPlayer) :
  ~ In 10%N l1 -> ~ In 10%N l2 ->
  Spec.isTimingLine l1 = true -> Spec.isTimingLine l2 = true ->
  parseVTT (l1 ++ newline ++ l2) this
  = Ok (withManualCues this
          (manualCues this
           ++ [mkCue (Spec.stamp (Spec.field 0 l1)) (Spec.stamp (Spec.field 1 l1))
                     (trim l2)])).
Proof.
  intros Hn1 Hn2 Ht1 Ht2. rewrite parseVTT_returns, parse_lines.
  change (l1 ++ newline ++ l2) with (l1 ++ 10%N :: l2). unfold newline.
  rewrite split_single_app, (split_last 10 [] l1 Hn1), (split_last 10 [] l2 Hn2).
  cbn [app Spec.cuesOf]. rewrite Ht1. cbn [Spec.cuesOf].
  rewrite (timing_not_blank l2 Ht2). reflexivity.
Qed.

Lemma parseVTT_swallows_timing_line_witness :
  parseVTT (lit "1 --> 2" ++ newline ++ lit "3 --> 4") Samples.fresh
  = Ok (withManualCues Samples.fresh [mkCue 1%float 2%float (lit "3 --> 4")]).
Proof.
  assert (Hn : forall s, forallb (fun x => negb (N.eqb x 10)) s = true -> ~ In 10%N s).
  { intros s Hs Hin. rewrite forallb_forall in Hs. specialize (Hs _ Hin).
    discriminate Hs. }
  rewrite (parseVTT_swallows_timing_line (lit "1 --> 2") (lit "3 --> 4") Samples.fresh
             (Hn (lit "1 --> 2") eq_refl) (Hn (lit "3 --> 4") eq_refl)
             eq_refl eq_refl).
  vm_compute. reflexivity.
Defined.

(* ================================================================== *)
(** * The statuses the transports accept *)

(** X14.  The two transports do not accept the same statuses.  A 2xx status
    other than 200 is a success for the fetch, whose body is parsed without
    any XHR, but a failure for the XHR, which then publishes its message and
    parses nothing; status 0 is a failure for the fetch and a success for
    the XHR. *)
Theorem transports_accept_different_statuses
  (status : Z) (body : jsstring) (net : Network) (this : AudioPlayer) :
  (200 < status <= 299)%Z ->
  (fetchOutcome net = FetchResponse status (Some body) ->
   loadVTTManually net this
   = Ok (withManualCues this (manualCues this ++ Spec.parse body),
         [FetchSent vttUrl]))
  /\ (xhrOutcome net = XhrLoad status body ->
      loadVTTWithXHR net this
      = Ok (publish xhrStatusMessage this,
            [XhrSent vttUrl; Published xhrStatusMessage]))
  /\ (fetchOutcome net = FetchResponse 0 (Some body) ->
      loadVTTManually net this = fetchFailed net this)
  /\ (xhrOutcome net = XhrLoad 0 body ->
      loadVTTWithXHR net this
      = Ok (withManualCues this (manualCues this ++ Spec.parse body),
            [XhrSent vttUrl])).
Proof.
  intros Hstatus. repeat split.
  - intros Hf. unfold loadVTTManually. rewrite Hf.
    assert (Hok : responseOk status = true).
    { unfold responseOk. apply andb_true_intro. split; apply Z.leb_le; lia. }
    now rewrite Hok, parseVTT_returns.
  - intros Hx. unfold loadVTTWithXHR. rewrite Hx.
    assert (H200 : (status =? 200)%Z = false) by (apply Z.eqb_neq; lia).
    assert (H0 : (status =? 0)%Z = false) by (apply Z.eqb_neq; lia).
    now rewrite H200, H0.
  - intros Hf. unfold loadVTTManually. now rewrite Hf.
  - intros Hx. unfold loadVTTWithXHR. rewrite Hx. cbn [Z.eqb orb].
    now rewrite parseVTT_returns.
Qed.

Lemma transports_accept_different_statuses_witness :
  loadVTTManually
    (mkNetwork (FetchResponse 206 (Some Samples.cueBlock)) XhrError) Samples.fresh
  = Ok (withManualCues Samples.fresh (Spec.parse Samples.cueBlock),
        [FetchSent vttUrl])
  /\ loadVTTWithXHR
       (mkNetwork FetchRejected (XhrLoad 206 Samples.cueBlock)) Samples.fresh
     = Ok (publish xhrStatusMessage Samples.fresh,
           [XhrSent vttUrl; Published xhrStatusMessage]).
Proof.
  split.
  - refine (proj1 (transports_accept_different_statuses 206 Samples.cueBlock
                     (mkNetwork (FetchResponse 206 (Some Samples.cueBlock)) XhrError)
                     Samples.fresh _) eq_refl). lia.
  - refine (proj1 (proj2 (transports_accept_different_statuses 206 Samples.cueBlock
                     (mkNetwork FetchRejected (XhrLoad 206 Samples.cueBlock))
                     Samples.fresh _)) eq_refl). lia.
Defined.

(* ================================================================== *)
(** * How many cues, and what of a line matters *)

Lemma cuesOf_length (ls : list jsstring) (cur : option Spec.OpenCue) :
  List.length (Spec.cuesOf cur ls)
  <= (match cur with Some _ => 1 | None => 0 end)
     + List.length (filter Spec.isTimingLine ls).
Proof.
  revert cur; induction ls as [|l ls IH]; intros cur.
  - destruct cur; cbn; lia.
  - cbn [Spec.cuesOf filter]. destruct cur as [o|].
    + destruct (Spec.isBlank l).
      * pose proof (IH None) as H. cbv iota in H.
        destruct (Spec.isTimingLine l); cbn [List.length]; lia.
      * pose proof (IH (Some (Spec.addLine o l))) as H. cbv iota in H.
        destruct (Spec.isTimingLine l); cbn [List.length]; lia.
    + destruct (Spec.isTimingLine l).
      * pose proof (IH (Some (Spec.openCue l))) as H. cbv iota in H.
        cbn [List.length]. lia.
      * apply (IH None).
Qed.

(** X15.  [parseVTT] appends at most one cue per line that contains [-->]:
    the track grows by no more than the number of such lines in the text. *)
Theorem parseVTT_cue_count (vttText : jsstring) (this : AudioPlayer) :
  exists this',
    parseVTT vttText this = Ok this'
    /\ List.length (manualCues this')
       <= List.length (manualCues this)
          + List.length (filter Spec.isTimingLine (split newline vttText)).
Proof.
  exists (withManualCues this (manualCues this ++ Spec.parse vttText)).
  split; [apply parseVTT_returns|].
  cbn [withManualCues manualCues]. rewrite length_app, parse_lines.
  pose proof (cuesOf_length (split newline vttText) None) as H. cbv iota in H. lia.
Qed.

(** X16.  Of each line only its trimmed form matters: two texts whose lines
    are pairwise equal once trimmed give the same result, so indentation
    and trailing white space never change the cues. *)
Theorem parseVTT_trim_insensitive (text1 text2 : jsstring) (this : AudioPlayer) :
  Forall2 (fun a b => trim a = trim b)
          (split newline text1) (split newline text2) ->
  parseVTT text1 this = parseVTT text2 this.
Proof.
  intros H. rewrite !parseVTT_returns, !parse_lines.
  now rewrite (cuesOf_trim _ _ H).
Qed.

Lemma parseVTT_trim_insensitive_witness :
  parseVTT (lit "  1 --> 2 " ++ newline ++ 9%N :: lit "Hi  ") Samples.fresh
  = parseVTT (lit "1 --> 2" ++ newline ++ lit "Hi") Samples.fresh.
Proof.
  apply parseVTT_trim_insensitive. vm_compute. repeat constructor.
Defined.

(* ================================================================== *)
(** * The times of the cues that are stored *)

(** C6, amended.  Every cue that [parseVTT] appends, from any text, comes
    from a line of the text that contains [-->] and stores, unvalidated and
    in the order written, the two values that the first and the second field
    of that line parse to.  When the first field is a timestamp of the
    grammar the start is at least 0, and when the second is, so is the end.
    The parser does not compare the two: for a cue whose first field is a
    timestamp of the grammar, [0 <= startTime <= endTime] holds exactly when
    the first parsed value does not exceed the second. *)
Theorem parseVTT_cue_times (vttText : jsstring) (this this' : AudioPlayer) :
  parseVTT vttText this = Ok this' ->
  Forall (fun c =>
            exists l,
              In l (split newline vttText)
              /\ Spec.isTimingLine l = true
              /\ startTime c = Spec.stamp (Spec.field 0 l)
              /\ endTime c = Spec.stamp (Spec.field 1 l)
              /\ (Spec.Timestamp (Spec.field 0 l) ->
                  Spec.nonneg (startTime c) = true)
              /\ (Spec.Timestamp (Spec.field 1 l) ->
                  Spec.nonneg (endTime c) = true)
              /\ (Spec.Timestamp (Spec.field 0 l) ->
                  (Spec.cueInvariant c = true
                   <-> leb (startTime c) (endTime c) = true)))
         (Spec.appended this this').
Proof.
  intros Hrun. rewrite (appended_parse _ _ _ Hrun).
  apply Forall_forall. intros c Hc. unfold Spec.parse in Hc.
  destruct (cuesOf_origin _ _ _ Hc) as [[o [E _]]|[l [Hl [Ht [Hs He]]]]];
    [discriminate E|].
  apply skipToTiming_incl in Hl.
  exists l. split; [exact Hl|]. split; [exact Ht|].
  split; [exact Hs|]. split; [exact He|].
  assert (Hstart : Spec.Timestamp (Spec.field 0 l) ->
                   Spec.nonneg (startTime c) = true)
    by (intros H0; rewrite Hs; now apply stamp_timestamp).
  split; [exact Hstart|].
  split; [intros H1; rewrite He; now apply stamp_timestamp|].
  intros H0. unfold Spec.cueInvariant. rewrite (Hstart H0). reflexivity.
Qed.

Lemma parseVTT_cue_times_witness :
  Spec.nonneg 1%float = true
  /\ Spec.nonneg 3%float = true
  /\ Spec.cueInvariant (mkCue 1%float 3%float (lit "Hello world")) = true.
Proof.
  assert (Hrun : parseVTT Samples.cueBlock Samples.fresh
                 = Ok (withManualCues Samples.fresh
                         [mkCue 1%float 3%float (lit "Hello world")]))
    by (vm_compute; reflexivity).
  pose proof (parseVTT_cue_times Samples.cueBlock Samples.fresh _ Hrun) as H.
  apply (Forall_inv (a := mkCue 1%float 3%float (lit "Hello world")) (l := []))
    in H.
  destruct H as [l [Hin [Ht [_ [_ [H0 [H1 Hinv]]]]]]].
  assert (Hfields : Spec.Timestamp (Spec.field 0 l)
                    /\ Spec.Timestamp (Spec.field 1 l)).
  { vm_compute in Hin.
    destruct Hin as [<-|[<-|[<-|[<-|[<-|[]]]]]]; try discriminate Ht.
    split.
    - exists [lit "00"; lit "00"; lit "01"], (Some (lit "000")). split.
      + split; [cbn; lia|]. split.
        * repeat constructor; apply digits_of_test; reflexivity.
        * intros f [= <-]. apply digits_of_test. reflexivity.
      + vm_compute. reflexivity.
    - exists [lit "00"; lit "00"; lit "03"], (Some (lit "000")). split.
      + split; [cbn; lia|]. split.
        * repeat constructor; apply digits_of_test; reflexivity.
        * intros f [= <-]. apply digits_of_test. reflexivity.
      + vm_compute. reflexivity. }
  destruct Hfields as [Hf0 Hf1].
  split; [exact (H0 Hf0)|]. split; [exact (H1 Hf1)|].
  apply (Hinv Hf0). reflexivity.
Defined.

(* ================================================================== *)
(** * Fields outside the grammar, whatever they hold *)

Lemma mul_nan_l (x : number) : (nan * x)%float = nan.
Proof.
  apply Prim2SF_inj. rewrite FloatAxioms.mul_spec.
  change (Prim2SF nan) with S754_nan. reflexivity.
Qed.

(** [parseTimestamp] is the weighted sum of the pieces used, plus the
    fraction when there is one. *)
Lemma stamp_pieces (s : jsstring) :
  Spec.stamp s
  = match Spec.fractionUsed s with
    | Some f => (Spec.sumOf (Spec.piecesUsed s) + f)%float
    | None => Spec.sumOf (Spec.piecesUsed s)
    end.
Proof.
  unfold Spec.stamp, Spec.fractionUsed, Spec.piecesUsed.
  rewrite parseTimestamp_eq. cbv zeta.
  rewrite (nth_error_last (split (lit ":") s) [])
    by (apply split_nonempty; discriminate).
  cbn [receiver bind].
  destruct (1 <? List.length (split (lit ".") (last (split (lit ":") s) [])));
    destruct (List.length (split (lit ":") s) =? 3);
    try destruct (List.length (split (lit ":") s) =? 2); reflexivity.
Qed.

Lemma sumOf_nan (pieces : list number) :
  In nan pieces -> Spec.sumOf pieces = nan.
Proof.
  destruct pieces as [|a [|b [|c [|d r]]]]; cbn [Spec.sumOf In]; trivial.
  - intros [->|[]]. reflexivity.
  - intros [->|[->|[]]].
    + now rewrite mul_nan_l, add_nan_l.
    + apply add_nan_r.
  - intros [->|[->|[->|[]]]].
    + now rewrite mul_nan_l, !add_nan_l.
    + now rewrite mul_nan_l, add_nan_r, add_nan_l.
    + apply add_nan_r.
Qed.

Lemma piecesUsed_sum_nonneg (s : jsstring) :
  Forall (fun v => Spec.nonneg v = true) (Spec.piecesUsed s) ->
  Spec.nonneg (Spec.sumOf (Spec.piecesUsed s)) = true.
Proof.
  unfold Spec.piecesUsed. cbv zeta.
  destruct (List.length (split (lit ":") s) =? 3);
    [|destruct (List.length (split (lit ":") s) =? 2)];
    intros H;
    repeat match goal with
           | H : Forall _ (_ :: _) |- _ => inversion H; clear H; subst
           end;
    cbn [Spec.sumOf];
    repeat first [assumption | apply nonneg_add | apply nonneg_mul_3600
                 | apply nonneg_mul_60].
Qed.

Lemma takeWhile_Forall (p : N -> bool) (s : jsstring) :
  Forall (fun c => p c = true) (takeWhile p s).
Proof.
  induction s as [|c s IH]; cbn [takeWhile]; [constructor|].
  destruct (p c) eqn:E; [now constructor|constructor].
Qed.

Lemma nonneg_ofDecimal (m e : Z) :
  (0 <= m)%Z -> Spec.nonneg (ofDecimal false m e) = true.
Proof.
  intros Hm. unfold ofDecimal.
  destruct (m =? 0)%Z; [vm_compute; reflexivity|].
  destruct (0 <=? e)%Z eqn:He.
  - apply nonneg_ofInteger. apply Z.leb_le in He.
    apply Z.mul_nonneg_nonneg; [exact Hm|]. apply Z.pow_nonneg. lia.
  - apply nonneg_ofRatio; [exact Hm|]. apply Z.leb_gt in He.
    apply Z.pow_pos_nonneg; lia.
Qed.

(** The fraction is read behind ["0."], whatever follows: it is never
    negative and never NaN. *)
Lemma parseFloat_zero_dot_nonneg (x : jsstring) :
  Spec.nonneg (parseFloat (lit "0." ++ x)) = true.
Proof.
  change (lit "0." ++ x) with (48%N :: 46%N :: x).
  unfold parseFloat, trimStart. cbn [dropWhile].
  change (isWhiteSpace 48) with false. cbv iota.
  unfold readSign. eval_ch.
  change (N.eqb 48 45) with false. change (N.eqb 48 43) with false. cbv iota.
  change (lit "Infinity") with (73%N :: lit "nfinity"). cbn [isPrefix].
  change (N.eqb 73 48) with false. cbn [andb takeWhile dropWhile].
  change (isDigit 48) with true. change (isDigit 46) with false. cbv iota.
  change (N.eqb 46 46) with true. cbv iota. cbn [app].
  apply nonneg_ofDecimal.
  assert (Hd : Forall (fun c => isDigit c = true) (48%N :: takeWhile isDigit x))
    by (constructor; [reflexivity|apply takeWhile_Forall]).
  rewrite (radixValue_decimal _ Hd). now apply decimal_nonneg.
Qed.

Lemma stamp_nonneg (s : jsstring) :
  Forall (fun v => Spec.nonneg v = true) (Spec.piecesUsed s) ->
  Spec.nonneg (Spec.stamp s) = true.
Proof.
  intros H. rewrite stamp_pieces. pose proof (piecesUsed_sum_nonneg s H) as Hsum.
  unfold Spec.fractionUsed. cbv zeta.
  destruct (1 <? List.length (split (lit ".") (last (split (lit ":") s) [])));
    [|exact Hsum].
  apply nonneg_add; [exact Hsum|apply parseFloat_zero_dot_nonneg].
Qed.

Lemma stamp_pieces_nan (s : jsstring) :
  In nan (Spec.piecesUsed s) -> Spec.stamp s = nan.
Proof.
  intros H. rewrite stamp_pieces, (sumOf_nan _ H).
  destruct (Spec.fractionUsed s); [apply add_nan_l|reflexivity].
Qed.

Lemma blank_not_timing (l : jsstring) :
  Spec.isBlank l = true -> Spec.isTimingLine l = false.
Proof.
  intros Hb. destruct (Spec.isTimingLine l) eqn:Ht; [|reflexivity].
  apply timing_not_blank in Ht. congruence.
Qed.

Lemma openAfter_blank (ls : list jsstring) (l0 : jsstring) (cur : option Spec.OpenCue) :
  Spec.isBlank l0 = true -> Spec.openAfter cur (ls ++ [l0]) = None.
Proof.
  intros Hb. revert cur; induction ls as [|l ls IH]; intros cur.
  - cbn [app Spec.openAfter]. rewrite Hb, (blank_not_timing l0 Hb).
    now destruct cur.
  - cbn [app Spec.openAfter]. destruct cur as [o|].
    + destruct (Spec.isBlank l); apply IH.
    + destruct (Spec.isTimingLine l); apply IH.
Qed.

Lemma openAfter_no_timing (ls : list jsstring) :
  existsb Spec.isTimingLine ls = false -> Spec.openAfter None ls = None.
Proof.
  induction ls as [|l ls IH]; [reflexivity|].
  cbn [existsb Spec.openAfter]. intros H. apply orb_false_elim in H as [Hl Hls].
  rewrite Hl. now apply IH.
Qed.

Lemma cuesOf_app_idle (before rest : list jsstring) (cur : option Spec.OpenCue) :
  Spec.openAfter cur before = None ->
  Spec.cuesOf cur (before ++ rest)
  = Spec.cuesOf cur before ++ Spec.cuesOf None rest.
Proof.
  revert cur; induction before as [|l before IH]; intros cur Hidle.
  - cbn [Spec.openAfter] in Hidle. subst cur. reflexivity.
  - cbn [Spec.openAfter] in Hidle. cbn [app Spec.cuesOf]. destruct cur as [o|].
    + destruct (Spec.isBlank l).
      * cbn [app]. now rewrite (IH None Hidle).
      * now apply IH.
    + destruct (Spec.isTimingLine l); now apply IH.
Qed.

(** A timing line that is read outside the text of a cue yields its cue,
    whatever its fields parse to. *)
Lemma timing_line_yields_cue
  (vttText : jsstring) (this : AudioPlayer) (before after : list jsstring)
  (l : jsstring) :
  split newline vttText = before ++ l :: after ->
  Spec.openAfter None before = None ->
  Spec.isTimingLine l = true ->
  exists shown more,
    parseVTT vttText this
    = Ok (withManualCues this
            (manualCues this
             ++ Spec.cuesOf None before
             ++ mkCue (Spec.stamp (Spec.field 0 l)) (Spec.stamp (Spec.field 1 l))
                      shown
                :: more)).
Proof.
  intros Hlines Hidle Ht.
  destruct (cuesOf_open after (Spec.openCue l)) as [shown [more E]].
  exists shown, more.
  rewrite parseVTT_returns, parse_lines, Hlines, (cuesOf_app_idle _ _ _ Hidle).
  cbn [Spec.cuesOf]. rewrite Ht, E. reflexivity.
Qed.

(** C8, amended.  Timestamp parsing always returns and never raises, and so
    does [parseVTT].  A field outside the grammar is neither rejected nor
    corrected; it is read by the numeric-prefix rules of [parseInt] and
    [parseFloat].  The result is NaN whenever one of the pieces that enter
    the sum (the hour and minute pieces when three or two colon-delimited
    fields are present, and the whole-seconds piece) parses to NaN, having no
    numeric prefix; it is a Number that is at least 0 whenever each of these
    pieces parses to one; and it need not be 0 (["1:2:3:4"] gives 4,
    ["12abc"] gives 12, ["5.abc"] gives 5, while ["x:5"] and ["abc"] give
    NaN).  In any text, a timing line that is read outside the text of a cue
    (the first one, one after a blank line, one after lines without [-->])
    yields a cue that stores what its fields parse to, and that cue is
    scanned like any other: with a NaN bound it covers no time, and a cue
    from 0 to 0 is found at time 0. *)
Theorem malformed_fields_kept :
  (forall s, parseTimestamp s = Ok (Spec.stamp s))
  /\ (forall vttText this, exists this', parseVTT vttText this = Ok this')
  /\ (forall s, In nan (Spec.piecesUsed s) -> parseTimestamp s = Ok nan)
  /\ (forall s,
         Forall (fun v => Spec.nonneg v = true) (Spec.piecesUsed s) ->
         exists v, parseTimestamp s = Ok v /\ Spec.nonneg v = true)
  /\ (forall vttText this before l after,
         split newline vttText = before ++ l :: after ->
         Spec.openAfter None before = None ->
         Spec.isTimingLine l = true ->
         exists shown more,
           parseVTT vttText this
           = Ok (withManualCues this
                   (manualCues this
                    ++ Spec.cuesOf None before
                    ++ mkCue (Spec.stamp (Spec.field 0 l))
                             (Spec.stamp (Spec.field 1 l)) shown
                       :: more)))
  /\ (forall cur ls l0,
         Spec.isBlank l0 = true -> Spec.openAfter cur (ls ++ [l0]) = None)
  /\ (forall ls,
         existsb Spec.isTimingLine ls = false -> Spec.openAfter None ls = None)
  /\ (forall t c, startTime c = nan \/ endTime c = nan -> covers t c = false)
  /\ parseTimestamp (lit "1:2:3:4") = Ok 4%float
  /\ parseTimestamp (lit "12abc") = Ok 12%float
  /\ parseTimestamp (lit "5.abc") = Ok 5%float
  /\ parseTimestamp (lit "x:5") = Ok nan
  /\ parseTimestamp (lit "abc") = Ok nan
  /\ parseTimestamp [] = Ok nan
  /\ scanCues 0%float [mkCue 0%float 0%float []] = Some (mkCue 0%float 0%float []).
Proof.
  split; [exact parseTimestamp_returns|].
  split; [intros vttText this; eexists; apply parseVTT_returns|].
  split; [intros s Hs; now rewrite parseTimestamp_returns, (stamp_pieces_nan s Hs)|].
  split.
  { intros s Hs. exists (Spec.stamp s).
    split; [apply parseTimestamp_returns|now apply stamp_nonneg]. }
  split.
  { intros vttText this before l after. apply timing_line_yields_cue. }
  split; [intros cur ls l0; apply openAfter_blank|].
  split; [exact openAfter_no_timing|].
  split; [exact covers_nan|].
  repeat split; vm_compute; reflexivity.
Qed.

Lemma malformed_fields_kept_witness :
  parseTimestamp (lit "x:5") = Ok nan
  /\ (exists v, parseTimestamp (lit "1:2:3:4") = Ok v /\ Spec.nonneg v = true)
  /\ (exists shown more,
         parseVTT (lit "note" ++ newline ++ newline
                   ++ lit "x:5 --> 1:2:3:4" ++ newline ++ lit "Hi")
                  Samples.fresh
         = Ok (withManualCues Samples.fresh
                 (mkCue nan 4%float shown :: more))).
Proof.
  split; [|split].
  - apply (proj1 (proj2 (proj2 malformed_fields_kept)) (lit "x:5")).
    vm_compute. now left.
  - apply (proj1 (proj2 (proj2 (proj2 malformed_fields_kept))) (lit "1:2:3:4")).
    vm_compute. repeat constructor.
  - destruct (proj1 (proj2 (proj2 (proj2 (proj2 malformed_fields_kept))))
                (lit "note" ++ newline ++ newline
                 ++ lit "x:5 --> 1:2:3:4" ++ newline ++ lit "Hi")
                Samples.fresh
                [lit "note"; []] (lit "x:5 --> 1:2:3:4") [lit "Hi"])
      as [shown [more E]].
    + vm_compute. reflexivity.
    + apply (proj1 (proj2 (proj2 (proj2 (proj2 (proj2 malformed_fields_kept)))))
               None [lit "note"] []). reflexivity.
    + reflexivity.
    + exists shown, more. rewrite E. vm_compute. reflexivity.
Defined.
